(** * Randomization strategies for controlled trials

    A shallow embedding of [src/randomizations.py] (class [Randomizations])
    and the properties of its allocation strategies.

    Layout:
    - [Py]: the Python built-ins the module relies on (exceptions, insertion
      ordered dictionaries, [range], slices, [min] with a key,
      [random.shuffle]);
    - the engine: the state of the process (the store of list objects and
      the two process-wide random generators), the class and its methods,
      in a state-and-exception monad; calls, runs and the schedule of the
      repeatability test;
    - the vocabulary of the properties, a concrete generator and the inputs
      of the usage example;
    - lemmas on the built-ins, on round-robin dealing, blocks, shuffling and
      the greedy balancing loop;
    - the properties of the strategies, for every generator, then on
      concrete inputs. *)

From Stdlib Require Import ZArith Lia.
From stdpp Require Import gmap strings list fin_maps.

(* ===================================================================== *)
(** * Python built-ins *)
(* ===================================================================== *)

Module Py.

(** The exceptions the module can raise: [ValueError] ([range] with a zero
    step, [min] of an empty mapping, a seed that [numpy] rejects) and
    [KeyError] (a subscript on a dictionary that lacks the key). *)
Inductive exn := ValueError | KeyError.

Inductive result (A : Type) :=
  | Ok (a : A)
  | Raise (e : exn).
Arguments Ok {A} a.
Arguments Raise {A} e.

Definition result_bind {A B} (r : result A) (f : A → result B) : result B :=
  match r with
  | Ok a => f a
  | Raise e => Raise e
  end.

(** [result_mapM f l]: evaluate [f] on the elements left to right, stopping
    at the first exception (a list comprehension whose body can raise). *)
Fixpoint result_mapM {A B} (f : A → result B) (l : list A) : result (list B) :=
  match l with
  | [] => Ok []
  | x :: l' =>
      result_bind (f x) (λ y,
      result_bind (result_mapM f l') (λ ys, Ok (y :: ys)))
  end.

(** ** Dictionaries

    A Python [dict] iterates in insertion order and holds each key once:
    storing under a key that is present replaces the value and keeps the
    position of the key. *)
Section dict.
Context {K V : Type} `{EqDecision K}.

Definition dict := list (K * V).

(** [d[k] = v] *)
Fixpoint dict_set (k : K) (v : V) (d : dict) : dict :=
  match d with
  | [] => [(k, v)]
  | (k', v') :: d' =>
      if decide (k = k') then (k', v) :: d' else (k', v') :: dict_set k v d'
  end.

(** [d.get(k)] *)
Fixpoint dict_get (k : K) (d : dict) : option V :=
  match d with
  | [] => None
  | (k', v') :: d' => if decide (k = k') then Some v' else dict_get k d'
  end.

(** [d[k]] as an expression. *)
Definition dict_subscript (k : K) (d : dict) : result V :=
  match dict_get k d with
  | Some v => Ok v
  | None => Raise KeyError
  end.

Definition dict_keys (d : dict) : list K := d.*1.
Definition dict_values (d : dict) : list V := d.*2.
Definition dict_items (d : dict) : list (K * V) := d.

(** [dict(items)], and a dictionary comprehension whose iterations produce
    [items] in order: the pairs are stored one after the other. *)
Definition dict_from_items (items : list (K * V)) : dict :=
  foldl (λ d kv, dict_set kv.1 kv.2 d) [] items.

(** [d[k].extend(xs)] on a plain dictionary, for list values. *)
Definition dict_update (f : V → V) (k : K) (d : dict) : result dict :=
  match dict_get k d with
  | Some v => Ok (dict_set k (f v) d)
  | None => Raise KeyError
  end.

(** [d[k].extend(xs)] on a [defaultdict]: a missing key is first stored
    with the default value. *)
Definition defaultdict_update (dflt : V) (f : V → V) (k : K) (d : dict) : dict :=
  match dict_get k d with
  | Some v => dict_set k (f v) d
  | None => dict_set k (f dflt) d
  end.
End dict.
Arguments dict : clear implicits.

(** ** [range] and slices *)

(** Number of elements of [range(start, stop, step)], [step ≠ 0]. *)
Definition range_length (start stop step : Z) : nat :=
  if decide (0 < step)%Z then
    if decide (start < stop)%Z then Z.to_nat ((stop - start - 1) / step + 1) else 0
  else
    if decide (stop < start)%Z then Z.to_nat ((start - stop - 1) / (- step) + 1) else 0.

Definition range (start stop step : Z) : result (list Z) :=
  if decide (step = 0)%Z then Raise ValueError
  else Ok ((λ k : nat, (start + Z.of_nat k * step)%Z) <$> seq 0 (range_length start stop step)).

(** A slice bound is counted from the end when negative, then clipped to
    the list. *)
Definition clip_index (n : nat) (i : Z) : nat :=
  if decide (i < 0)%Z then Z.to_nat (Z.max (i + Z.of_nat n) 0)
  else Z.to_nat (Z.min i (Z.of_nat n)).

(** [l[lo:hi]]: a new list. *)
Definition slice {A} (l : list A) (lo hi : Z) : list A :=
  let lo' := clip_index (length l) lo in
  let hi' := clip_index (length l) hi in
  take (hi' - lo') (drop lo' l).

(** [l[start::step]] for [start ≥ 0] and [step > 0]: a new list holding the
    elements at the indices [start], [start + step], ... below [len(l)]. *)
Definition slice_step_length (n start step : nat) : nat :=
  if decide (start < n) then (n - start - 1) `div` step + 1 else 0.

Definition slice_step {A} (l : list A) (start step : nat) : list A :=
  omap (λ k, l !! (start + k * step)) (seq 0 (slice_step_length (length l) start step)).

(** ** [min(d, key=f)]

    The iteration keeps the first element and replaces it by a later one only
    when the key of the later one is strictly smaller; [ValueError] when
    there is nothing to iterate over. *)
Definition min_by {A} (key : A → nat) (l : list A) : result A :=
  match l with
  | [] => Raise ValueError
  | x :: l' => Ok (foldl (λ best y, if decide (key y < key best) then y else best) x l')
  end.

(** ** The random generators

    The pseudo-random generators are external: the module only seeds them
    and draws through [random.shuffle].  [randbelow n] is the draw
    [Random._randbelow(n)], uniform in [0, n). *)
Class RandomSource := {
  rng_state : Type;
  np_state : Type;
  rng_seed : Z → rng_state;
  np_seed : Z → np_state;
  randbelow : nat → rng_state → nat * rng_state;
  randbelow_lt : ∀ n s, 0 < n → (randbelow n s).1 < n
}.

Section shuffle.
Context `{RandomSource} {A : Type}.

(** [x[i], x[j] = x[j], x[i]].  In [shuffle] both indices are in range:
    [i < len(x)] by the bounds of the loop and [j < i + 1] by [randbelow_lt]
    (lemma [shuffle_step_in_range] below); out of range nothing is done. *)
Definition swap (i j : nat) (x : list A) : list A :=
  match x !! i, x !! j with
  | Some a, Some b => <[j:=a]> (<[i:=b]> x)
  | _, _ => x
  end.

(** One iteration of the loop of [random.shuffle]:
    [j = randbelow(i + 1); x[i], x[j] = x[j], x[i]]. *)
Definition shuffle_step (acc : list A * rng_state) (i : nat) : list A * rng_state :=
  let '(j, s') := randbelow (i + 1) acc.2 in (swap i j acc.1, s').

(** [random.shuffle(x)]: [for i in reversed(range(1, len(x)))]. *)
Definition shuffle (x : list A) (s : rng_state) : list A * rng_state :=
  foldl shuffle_step (x, s) (reverse (seq 1 (length x - 1))).
End shuffle.

End Py.
Import Py.

(* ===================================================================== *)
(** * The engine *)
(* ===================================================================== *)

(** List objects that exist before a call and are mutated in place (the
    participant list handed to the constructor, the member lists of a
    [strata] mapping) live in a store and are named by their location, so
    that two names of one object see the same updates.  Lists created
    during a call (slices, accumulators, the lists of the returned mapping)
    are reachable from nowhere else and are represented by their contents. *)
Abbreviation loc := nat (only parsing).

Section engine.
Context `{RS : RandomSource}.
(** Participant identifiers, group names, covariate values, and the names
    of strata and clusters: opaque values compared with [==]. *)
Context {P G V K : Type}.
Context `{Countable P, EqDecision G, EqDecision V, EqDecision K}.

(** The state of the process: the store of list objects and the state of
    the generators of [random] and [numpy.random], which are global. *)
Record world := World {
  heap : gmap loc (list P);
  py_random : rng_state;
  np_random : np_state
}.

(** A computation may update the state and ends with a value or an
    exception; updates made before an exception persist. *)
Definition M (A : Type) : Type := world → result A * world.

Definition ret {A} (a : A) : M A := λ w, (Ok a, w).
Definition bind {A B} (m : M A) (f : A → M B) : M B :=
  λ w, match m w with
       | (Ok a, w') => f a w'
       | (Raise e, w') => (Raise e, w')
       end.
Definition lift {A} (r : result A) : M A := λ w, (r, w).

#[local] Notation "x ← m ; f" := (bind m (λ x, f))
  (at level 20, m at level 100, f at level 200, only parsing).
#[local] Notation "m ;; f" := (bind m (λ _, f))
  (at level 100, f at level 200, only parsing, right associativity).

(** [for x in l: acc = body(acc, x)] *)
Fixpoint foldM {A B} (body : B → A → M B) (acc : B) (l : list A) : M B :=
  match l with
  | [] => ret acc
  | x :: l' => acc' ← body acc x; foldM body acc' l'
  end.

(** The contents of the list object at [l]. *)
Definition load (l : loc) : M (list P) := λ w, (Ok (heap w !!! l), w).

(** [random.shuffle(x)] for the list object [x]: in place. *)
Definition shuffle_at (l : loc) : M unit := λ w,
  let '(x, s) := shuffle (heap w !!! l) (py_random w) in
  (Ok (), {| heap := <[l:=x]> (heap w); py_random := s; np_random := np_random w |}).

(** [random.shuffle(x)] for a list [x] created in the call. *)
Definition shuffle_new {A} (x : list A) : M (list A) := λ w,
  let '(x', s) := shuffle x (py_random w) in
  (Ok x', {| heap := heap w; py_random := s; np_random := np_random w |}).

Record Randomizations := {
  participants : loc;
  groups : list G
}.

(** [random.seed(seed); np.random.seed(seed)]: [numpy] accepts the
    integers of [0, 2**32) only. *)
Definition set_random_seed (seed : Z) : M unit := λ w,
  let w1 := {| heap := heap w; py_random := rng_seed seed; np_random := np_random w |} in
  if decide (0 ≤ seed < 2 ^ 32)%Z
  then (Ok (), {| heap := heap w1; py_random := py_random w1; np_random := np_seed seed |})
  else (Raise ValueError, w1).

(** [Randomizations(participants, groups, seed)]: the engine keeps the
    caller's list object, not a copy. *)
Definition init (participants : loc) (groups : list G) (seed : option Z) : M Randomizations :=
  let self := {| participants := participants; groups := groups |} in
  match seed with
  | Some seed => set_random_seed seed;; ret self
  | None => ret self
  end.

(** [{group: xs[i::len(groups)] for i, group in enumerate(groups)}], the
    expression every round-robin strategy ends with. *)
Definition round_robin {A} (groups : list G) (xs : list A) : dict G (list A) :=
  dict_from_items (imap (λ i group, (group, slice_step xs i (length groups))) groups).

Definition simple_randomization (self : Randomizations) : M (dict G (list P)) :=
  shuffle_at (participants self);;
  ps ← load (participants self);
  ret (round_robin (groups self) ps).

(** [for block in blocks: random.shuffle(block); randomized_blocks.extend(block)] *)
Definition shuffle_blocks (blocks : list (list P)) : M (list P) :=
  foldM (λ randomized_blocks block,
           block' ← shuffle_new block;
           ret (randomized_blocks ++ block'))
        [] blocks.

(** [[xs[i:i + block_size] for i in range(0, len(xs), block_size)]] *)
Definition make_blocks (xs : list P) (block_size : Z) : result (list (list P)) :=
  result_bind (range 0 (Z.of_nat (length xs)) block_size) (λ starts,
  Ok ((λ i, slice xs i (i + block_size)) <$> starts)).

Definition block_randomization (self : Randomizations) (block_size : Z)
    : M (dict G (list P)) :=
  ps ← load (participants self);
  blocks ← lift (make_blocks ps block_size);
  randomized_blocks ← shuffle_blocks blocks;
  ret (round_robin (groups self) randomized_blocks).

(** The inner loop of [stratified_randomization]:
    [for group, members in allocation.items():
       stratified_groups[group].extend(members)]. *)
Definition extend_groups (stratified_groups allocation : dict G (list P))
    : result (dict G (list P)) :=
  foldl (λ acc item,
           result_bind acc (dict_update (λ xs, xs ++ item.2) item.1))
        (Ok stratified_groups) (dict_items allocation).

Definition stratified_randomization (self : Randomizations) (strata : dict K loc)
    : M (dict G (list P)) :=
  let stratified_groups := dict_from_items ((λ group, (group, [])) <$> groups self) in
  foldM (λ stratified_groups item,
           let members := item.2 in
           shuffle_at members;;
           ms ← load members;
           let allocation := round_robin (groups self) ms in
           lift (extend_groups stratified_groups allocation))
        stratified_groups (dict_items strata).

(** [np.sum([covariates[p] == covariate_values for p in members])] *)
Definition imbalance_score (covariates : gmap P V) (covariate_values : V)
    (members : list P) : result nat :=
  result_bind
    (result_mapM (λ p, match covariates !! p with
                       | Some v => Ok (bool_decide (v = covariate_values))
                       | None => Raise KeyError
                       end) members)
    (λ flags, Ok (length (filter (λ b : bool, b = true) flags))).

(** The body of the loop of [minimization] for one participant. *)
Definition minimization_step (groups : list G) (covariates : gmap P V)
    (group_allocations : dict G (list P)) (participant : P)
    : result (dict G (list P)) :=
  match covariates !! participant with
  | None => Raise KeyError
  | Some covariate_values =>
      result_bind
        (result_mapM (λ group,
             result_bind (dict_subscript group group_allocations) (λ members,
             result_bind (imbalance_score covariates covariate_values members) (λ n,
             Ok (group, n)))) groups) (λ items,
      let imbalance_scores := dict_from_items items in
      result_bind
        (min_by (λ group, default 0 (dict_get group imbalance_scores))
                (dict_keys imbalance_scores)) (λ min_imbalance_group,
      dict_update (λ xs, xs ++ [participant]) min_imbalance_group group_allocations))
  end.

Definition minimization (self : Randomizations) (covariates : gmap P V)
    : M (dict G (list P)) :=
  let group_allocations := dict_from_items ((λ group, (group, [])) <$> groups self) in
  ps ← load (participants self);
  lift (foldl (λ acc participant,
                 result_bind acc (λ group_allocations,
                 minimization_step (groups self) covariates group_allocations participant))
              (Ok group_allocations) ps).

(** Same body as [minimization], the comprehension being passed through
    [dict(...)], which copies it. *)
Definition covariate_adaptive_randomization (self : Randomizations)
    (covariates : gmap P V) : M (dict G (list P)) :=
  let group_allocations :=
    dict_from_items (dict_items (dict_from_items ((λ group, (group, [])) <$> groups self))) in
  ps ← load (participants self);
  lift (foldl (λ acc participant,
                 result_bind acc (λ group_allocations,
                 minimization_step (groups self) covariates group_allocations participant))
              (Ok group_allocations) ps).

(** [[xs[i:i + block_size] for i in range(...)]] for each size in turn, all
    blocks accumulated in one list. *)
Definition make_permuted_blocks (xs : list P) (block_sizes : list Z)
    : result (list (list P)) :=
  foldl (λ acc block_size,
           result_bind acc (λ blocks,
           result_bind (make_blocks xs block_size) (λ new_blocks,
           Ok (blocks ++ new_blocks))))
        (Ok []) block_sizes.

Definition permuted_block_randomization (self : Randomizations) (block_sizes : list Z)
    : M (dict G (list P)) :=
  ps ← load (participants self);
  blocks ← lift (make_permuted_blocks ps block_sizes);
  randomized_blocks ← shuffle_blocks blocks;
  ret (round_robin (groups self) randomized_blocks).

(** The cluster-level allocation of [cluster_randomization]:
    [cluster_list = list(clusters.keys()); random.shuffle(cluster_list)]
    and the round-robin deal of the cluster names. *)
Definition cluster_allocation (self : Randomizations) (clusters : dict K (list P))
    : M (dict G (list K)) :=
  cluster_list ← shuffle_new (dict_keys clusters);
  ret (round_robin (groups self) cluster_list).

(** The expansion of the clusters of the groups into a [defaultdict(list)]. *)
Definition expand_clusters (clusters : dict K (list P))
    (cluster_allocation : dict G (list K)) : result (dict G (list P)) :=
  foldl (λ acc item,
           foldl (λ acc cluster,
                    result_bind acc (λ participant_allocation,
                    result_bind (dict_subscript cluster clusters) (λ members,
                    Ok (defaultdict_update [] (λ xs, xs ++ members) item.1
                                           participant_allocation))))
                 acc item.2)
        (Ok []) (dict_items cluster_allocation).

Definition cluster_randomization (self : Randomizations) (clusters : dict K (list P))
    : M (dict G (list P)) :=
  cluster_allocation ← cluster_allocation self clusters;
  participant_allocation ← lift (expand_clusters clusters cluster_allocation);
  ret (dict_from_items (dict_items participant_allocation)).

(** [randomization_check]: the sizes of the groups of an allocation (the
    line it prints is not part of the result). *)
Definition randomization_check {A} (groups : dict G (list A)) : dict G nat :=
  dict_from_items ((λ item, (item.1, length item.2)) <$> dict_items groups).
End engine.

(* ===================================================================== *)
(** * Call sequences *)
(* ===================================================================== *)

Section sessions.
Context `{RS : RandomSource} {P G V K : Type}.
Context `{Countable P, EqDecision G, EqDecision V, EqDecision K}.

(** The strategy methods of the class. *)
Inductive method :=
  | simple_randomization_m
  | block_randomization_m
  | stratified_randomization_m
  | covariate_adaptive_randomization_m
  | permuted_block_randomization_m
  | cluster_randomization_m
  | minimization_m.

(** A call of a strategy method, with its arguments. *)
Inductive call :=
  | SimpleRandomization
  | BlockRandomization (block_size : Z)
  | StratifiedRandomization (strata : dict K loc)
  | CovariateAdaptiveRandomization (covariates : gmap P V)
  | PermutedBlockRandomization (block_sizes : list Z)
  | ClusterRandomization (clusters : dict K (list P))
  | Minimization (covariates : gmap P V).

Definition method_of (c : call) : method :=
  match c with
  | SimpleRandomization => simple_randomization_m
  | BlockRandomization _ => block_randomization_m
  | StratifiedRandomization _ => stratified_randomization_m
  | CovariateAdaptiveRandomization _ => covariate_adaptive_randomization_m
  | PermutedBlockRandomization _ => permuted_block_randomization_m
  | ClusterRandomization _ => cluster_randomization_m
  | Minimization _ => minimization_m
  end.

Definition invoke (self : Randomizations) (c : call) : M (dict G (list P)) :=
  match c with
  | SimpleRandomization => simple_randomization self
  | BlockRandomization block_size => block_randomization self block_size
  | StratifiedRandomization strata => stratified_randomization self strata
  | CovariateAdaptiveRandomization covariates => covariate_adaptive_randomization self covariates
  | PermutedBlockRandomization block_sizes => permuted_block_randomization self block_sizes
  | ClusterRandomization clusters => cluster_randomization self clusters
  | Minimization covariates => minimization self covariates
  end.

(** The list objects a call receives from its caller. *)
Definition call_objects (c : call) : list loc :=
  match c with
  | StratifiedRandomization strata => dict_values strata
  | _ => []
  end.

(** The calls of a sequence one after the other on one engine; the outcome
    of each call is recorded, an exception of one call (caught by the
    caller) not preventing the next. *)
Fixpoint invoke_all (self : Randomizations) (calls : list call) (w : world)
    : list (result (dict G (list P))) * world :=
  match calls with
  | [] => ([], w)
  | c :: calls' =>
      let '(r, w1) := invoke self c w in
      let '(rs, w2) := invoke_all self calls' w1 in
      (r :: rs, w2)
  end.

(** A run: an engine is constructed and the calls are made on it.  No
    outcome is recorded when the constructor raises. *)
Definition run (participants : loc) (groups : list G) (seed : option Z)
    (calls : list call) (w : world)
    : result (list (result (dict G (list P)))) * world :=
  match init participants groups seed w with
  | (Ok self, w1) => let '(rs, w2) := invoke_all self calls w1 in (Ok rs, w2)
  | (Raise e, w1) => (Raise e, w1)
  end.

(** The schedule of [test_repeatability_with_seed]: two engines are
    constructed with the same groups and seed, each on its own list, and
    [simple_randomization] is then called on the first and on the second. *)
Definition two_engines (participants1 participants2 : loc) (groups : list G) (seed : Z)
    : M (dict G (list P) * dict G (list P)) :=
  bind (init participants1 groups (Some seed)) (λ randomizer1,
  bind (init participants2 groups (Some seed)) (λ randomizer2,
  bind (simple_randomization randomizer1) (λ randomized_groups1,
  bind (simple_randomization randomizer2) (λ randomized_groups2,
  ret (randomized_groups1, randomized_groups2))))).

(** A method shuffles the stored participant list when some call of it, on
    arguments that do not hold that very list, leaves the stored list
    different from what it was. *)
Definition shuffles_stored_list (m : method) : Prop :=
  ∃ (self : Randomizations) (c : call) (w : world),
    method_of c = m ∧
    (participants self ∉ call_objects c) ∧
    (heap (invoke self c w).2 !!! participants self) ≠ (heap w !!! participants self).
End sessions.

(* ===================================================================== *)
(** * Vocabulary of the properties *)
(* ===================================================================== *)

Section lists.
Context {A : Type}.

(** The stepped slice by structural recursion: [k] elements are skipped
    before the next one is taken. *)
Fixpoint every (step k : nat) (l : list A) : list A :=
  match l with
  | [] => []
  | x :: l' =>
      match k with
      | 0 => x :: every step (step - 1) l'
      | S k' => every step k' l'
      end
  end.

(** The blocks of size [b] of a list, by index: block [k] starts at
    [k * b]. *)
Definition blocks_of (b : nat) (xs : list A) : list (list A) :=
  (λ k, take b (drop (k * b) xs)) <$> seq 0 ((length xs + b - 1) `div` b).
End lists.

Section first_minimum.
Context {A : Type} (key : A → nat).

(** One comparison of [min]: a later element replaces the best one only
    when its key is strictly smaller. *)
Definition min_step (best y : A) : A := if decide (key y < key best) then y else best.
End first_minimum.

Section names.
Context {K : Type} `{EqDecision K}.

(** The keys of a list of names in the order of their first occurrence. *)
Definition first_occurrences (ks : list K) : list K :=
  foldl (λ acc k, if decide (k ∈ acc) then acc else acc ++ [k]) [] ks.

(** The number of occurrences of [x] in [l]. *)
Definition occurrences (x : K) (l : list K) : nat := length (filter (λ y, y = x) l).
End names.

Section sizes.
Context {G : Type} `{EqDecision G}.

(** The sizes of any two groups differ by at most [k]. *)
Definition spread_at_most (k : nat) (sizes : dict G nat) : Prop :=
  ∀ g1 g2 n1 n2, dict_get g1 sizes = Some n1 → dict_get g2 sizes = Some n2 → n1 ≤ n2 + k.

(** [max(sizes) - min(sizes) ≤ 1] *)
Definition balanced (sizes : dict G nat) : Prop := spread_at_most 1 sizes.
End sizes.

Section allocations.
Context {P G V : Type} `{Countable P, EqDecision G, EqDecision V}.
Implicit Types (groups : list G) (covariates : gmap P V) (a : dict G (list P)).

(** The members of a list whose covariate value is [v]. *)
Definition matching covariates (v : V) (members : list P) : nat :=
  length (filter (λ q, covariates !! q = Some v) members).

(** The participants assigned to a group so far. *)
Definition members_of (g : G) a : list P := default [] (dict_get g a).

(** [{group: [] for group in groups}] *)
Definition empty_allocation groups : dict G (list P) :=
  dict_from_items ((λ group, (group, [])) <$> groups).

(** The loop of [minimization] over a list of participants, from a given
    allocation. *)
Definition greedy groups covariates a (ps : list P) : result (dict G (list P)) :=
  foldl (λ acc participant,
           result_bind acc (λ group_allocations,
           minimization_step groups covariates group_allocations participant))
        (Ok a) ps.

(** Every declared group is a key, and every assigned participant has a
    covariate value. *)
Definition allocation_ok groups covariates a : Prop :=
  (∀ g, g ∈ groups → g ∈ dict_keys a) ∧
  (∀ g ms, (g, ms) ∈ a → Forall (λ q, is_Some (covariates !! q)) ms).
End allocations.

Section states.
Context `{RS : RandomSource} {P G V : Type}.
Context `{Countable P, EqDecision G, EqDecision V}.
Implicit Types (w : world (P := P)) (self : Randomizations (G := G)).

(** The state after a shuffle that left the generator in state [s]. *)
Definition with_py_random (s : rng_state) w : world :=
  {| heap := heap w; py_random := s; np_random := np_random w |}.

(** Each block shuffled in turn, the generator being threaded through. *)
Fixpoint shuffle_each {A} (blocks : list (list A)) (s : rng_state)
    : list (list A) * rng_state :=
  match blocks with
  | [] => ([], s)
  | block :: rest =>
      let '(block', s1) := shuffle block s in
      let '(rest', s2) := shuffle_each rest s1 in
      (block' :: rest', s2)
  end.

End states.

Section further_vocabulary.
Context {P G V K : Type} `{Countable P, EqDecision G, EqDecision V, EqDecision K}.
Implicit Types (groups : list G) (covariates : gmap P V) (a : dict G (list P)).


(** The member list of a cluster, as [clusters[cluster]] gives it. *)
Definition cluster_members (clusters : dict K (list P)) (cluster : K) : list P :=
  default [] (dict_get cluster clusters).

(** The cluster-level allocation expanded: a group that holds clusters
    gets their member lists one after the other, a group that holds none
    is left out. *)
Definition expanded (clusters : dict K (list P)) (cluster_allocation : dict G (list K))
    : dict G (list P) :=
  omap (λ item : G * list K,
          match item.2 with
          | [] => None
          | _ :: _ => Some (item.1, concat (cluster_members clusters <$> item.2))
          end)
       cluster_allocation.
End further_vocabulary.

Section pools.
Context `{RS : RandomSource} {P G V K : Type}.
Context `{Countable P, EqDecision G, EqDecision V, EqDecision K}.

(** The participants a call is given to allocate: the stored list; for
    [stratified_randomization] the member lists of the strata, for
    [cluster_randomization] those of the clusters, and for
    [permuted_block_randomization] the stored list once per block size. *)
Definition pool (self : Randomizations (G := G)) (c : call (P := P) (V := V) (K := K))
    (w : world (P := P)) : list P :=
  match c with
  | StratifiedRandomization strata => concat ((λ l, heap w !!! l) <$> dict_values strata)
  | PermutedBlockRandomization block_sizes =>
      concat (replicate (length block_sizes) (heap w !!! participants self))
  | ClusterRandomization clusters => concat (dict_values clusters)
  | _ => heap w !!! participants self
  end.

(** The mapping of clusters a call receives is a dictionary: each cluster
    name is a key once.  (It is the only mapping the strategies look keys
    up in; the strata are only iterated over.) *)
Definition well_formed_call (c : call (P := P) (V := V) (K := K)) : Prop :=
  match c with
  | ClusterRandomization clusters => NoDup (dict_keys clusters)
  | _ => True
  end.
End pools.

(* ===================================================================== *)
(** * Concrete inputs *)
(* ===================================================================== *)

(** A linear congruential generator, used to run the strategies on concrete
    inputs.  Any lawful [RandomSource] would do. *)
Module Lcg.

Definition next (s : Z) : Z := ((1103515245 * s + 12345) mod 2 ^ 31)%Z.

Definition draw (n : nat) (s : Z) : nat * Z :=
  (Z.to_nat (next s `mod` Z.of_nat n), next s).

#[export] Instance source : RandomSource.
Proof.
  refine {| rng_state := Z; np_state := Z;
            rng_seed := λ seed, seed; np_seed := λ seed, seed;
            randbelow := draw |}.
  intros n s Hn. unfold draw. simpl.
  pose proof (Z.mod_pos_bound (next s) (Z.of_nat n)). lia.
Defined.

End Lcg.

Module Sample.
Import Lcg.
Open Scope string_scope.

(** A process whose store holds the given lists at locations 0, 1, ..., the
    generators being in some state. *)
Definition process (lists : list (list string)) (state : Z) : world (P := string) :=
  {| heap := list_to_map (imap (λ i xs, (i, xs)) lists);
     py_random := state; np_random := state |}.

Definition engine (groups : list string) : Randomizations (G := string) :=
  {| participants := 0; groups := groups |}.

Definition covariates_AB : gmap string string :=
  list_to_map [("P1", "A"); ("P2", "B"); ("P3", "A"); ("P4", "B");
               ("P5", "A"); ("P6", "B"); ("P7", "A"); ("P8", "B")].

Definition P1_P8 : list string := ["P1"; "P2"; "P3"; "P4"; "P5"; "P6"; "P7"; "P8"].

(** The process of the usage example of the module: the participant list
    at location 0, the member lists of the strata at locations 1 and 2. *)
Definition usage_process (state : Z) : world (P := string) :=
  process [P1_P8; ["P1"; "P2"; "P3"; "P4"]; ["P5"; "P6"; "P7"; "P8"]] state.

(** The strategy calls of the usage example, in its order. *)
Definition usage_calls : list (call (P := string) (V := string) (K := string)) :=
  [SimpleRandomization;
   BlockRandomization 4;
   StratifiedRandomization [("young", 1); ("old", 2)];
   CovariateAdaptiveRandomization covariates_AB;
   PermutedBlockRandomization [2; 4]%Z;
   ClusterRandomization [("cluster1", ["P1"; "P2"]); ("cluster2", ["P3"; "P4"]);
                         ("cluster3", ["P5"; "P6"]); ("cluster4", ["P7"; "P8"])];
   Minimization covariates_AB].
End Sample.

(* ===================================================================== *)
(** * Lemmas on the built-ins *)
(* ===================================================================== *)

Section dict_lemmas.
Context {K V : Type} `{EqDecision K}.
Implicit Types (d : dict K V) (k : K) (v : V).

Lemma dict_get_set_eq k v d : dict_get k (dict_set k v d) = Some v.
Proof.
  induction d as [|[k' v'] d IH]; simpl.
  - by rewrite decide_True.
  - destruct (decide (k = k')) as [->|Hne]; simpl.
    + by rewrite decide_True.
    + by rewrite decide_False.
Qed.

Lemma dict_get_set_ne k k' v d : k ≠ k' → dict_get k' (dict_set k v d) = dict_get k' d.
Proof.
  intros Hne. induction d as [|[k0 v0] d IH]; simpl.
  - by rewrite decide_False.
  - destruct (decide (k = k0)) as [->|Hne0]; simpl.
    + by rewrite !decide_False.
    + destruct (decide (k' = k0)); [done|apply IH].
Qed.

Lemma dict_get_None k d : dict_get k d = None ↔ k ∉ dict_keys d.
Proof.
  unfold dict_keys. induction d as [|[k' v'] d IH]; simpl.
  - split; [intros _; apply not_elem_of_nil|done].
  - rewrite not_elem_of_cons. destruct (decide (k = k')) as [->|Hne].
    + split; [done|]. intros [Hk _]. done.
    + rewrite IH. split; [by split|]. by intros [_ ?].
Qed.

Lemma dict_get_Some_elem k v d : dict_get k d = Some v → (k, v) ∈ d.
Proof.
  induction d as [|[k' v'] d IH]; simpl; [done|].
  destruct (decide (k = k')) as [->|]; intros Hg.
  - injection Hg as ->. left.
  - right. by apply IH.
Qed.

Lemma dict_get_is_Some k d : is_Some (dict_get k d) ↔ k ∈ dict_keys d.
Proof.
  rewrite <-not_eq_None_Some, dict_get_None.
  split; [apply dec_stable|auto].
Qed.

Lemma dict_keys_set_in k v d : k ∈ dict_keys d → dict_keys (dict_set k v d) = dict_keys d.
Proof.
  unfold dict_keys. induction d as [|[k' v'] d IH]; simpl.
  - by intros ?%elem_of_nil.
  - intros Hin. destruct (decide (k = k')) as [->|Hne]; simpl; [done|].
    f_equal. apply IH. by apply elem_of_cons in Hin as [?|?].
Qed.

Lemma dict_set_notin k v d : k ∉ dict_keys d → dict_set k v d = d ++ [(k, v)].
Proof.
  unfold dict_keys. induction d as [|[k' v'] d IH]; simpl; [done|].
  rewrite not_elem_of_cons. intros [Hne Hnin].
  rewrite decide_False by done. f_equal. by apply IH.
Qed.

Lemma dict_keys_set k v d :
  dict_keys (dict_set k v d) = if decide (k ∈ dict_keys d) then dict_keys d else dict_keys d ++ [k].
Proof.
  case_decide as Hin.
  - by apply dict_keys_set_in.
  - rewrite dict_set_notin by done. unfold dict_keys. by rewrite fmap_app.
Qed.

Lemma dict_set_NoDup k v d : NoDup (dict_keys d) → NoDup (dict_keys (dict_set k v d)).
Proof.
  intros Hnd. rewrite dict_keys_set. case_decide; [done|].
  apply NoDup_app. split_and!; [done| |apply NoDup_singleton].
  intros x Hx ->%list_elem_of_singleton. done.
Qed.

Lemma dict_from_items_snoc (items : list (K * V)) k v :
  dict_from_items (items ++ [(k, v)]) = dict_set k v (dict_from_items items).
Proof. unfold dict_from_items. by rewrite foldl_app. Qed.

Lemma dict_from_items_NoDup_keys (items : list (K * V)) :
  NoDup (dict_keys (dict_from_items items)).
Proof.
  induction items as [|[k v] items IH] using rev_ind.
  - apply NoDup_nil_2.
  - rewrite dict_from_items_snoc. by apply dict_set_NoDup.
Qed.

(** A duplicate-free list of pairs is stored as it is. *)
Lemma dict_from_items_NoDup (items : list (K * V)) :
  NoDup items.*1 → dict_from_items items = items.
Proof.
  induction items as [|[k v] items IH] using rev_ind; [done|].
  rewrite fmap_app, NoDup_app. intros (Hnd & Hnin & _).
  rewrite dict_from_items_snoc, IH by done.
  apply dict_set_notin. intros Hin. apply (Hnin k Hin). simpl. left.
Qed.

(** Copying a dictionary through [dict(...)] gives an equal dictionary. *)
Lemma dict_from_items_idemp (items : list (K * V)) :
  dict_from_items (dict_items (dict_from_items items)) = dict_from_items items.
Proof. apply dict_from_items_NoDup, dict_from_items_NoDup_keys. Qed.

Lemma dict_keys_from_items_elem (items : list (K * V)) k :
  k ∈ dict_keys (dict_from_items items) ↔ k ∈ items.*1.
Proof.
  induction items as [|[k' v'] items IH] using rev_ind.
  - done.
  - rewrite dict_from_items_snoc, dict_keys_set, fmap_app, elem_of_app. simpl.
    case_decide as Hin.
    + rewrite IH. rewrite list_elem_of_singleton. split; [auto|].
      intros [?| ->]; [done|]. by apply IH.
    + rewrite elem_of_app, IH. done.
Qed.

(** The value stored under a key is the one of the last pair with that key. *)
Lemma dict_get_from_items_snoc (items : list (K * V)) k v k' :
  dict_get k' (dict_from_items (items ++ [(k, v)])) =
  if decide (k = k') then Some v else dict_get k' (dict_from_items items).
Proof.
  rewrite dict_from_items_snoc. case_decide as Heq.
  - subst. apply dict_get_set_eq.
  - by apply dict_get_set_ne.
Qed.

Lemma dict_get_elem_NoDup k v d : NoDup (dict_keys d) → (k, v) ∈ d → dict_get k d = Some v.
Proof.
  unfold dict_keys. induction d as [|[k' v'] d IH]; simpl.
  - by intros _ ?%elem_of_nil.
  - rewrite NoDup_cons. intros [Hnin Hnd] Hin.
    apply elem_of_cons in Hin as [Heq|Hin].
    + injection Heq as -> ->. by rewrite decide_True.
    + destruct (decide (k = k')) as [->|]; [|by apply IH].
      exfalso. apply Hnin. apply list_elem_of_fmap. by exists (k', v).
Qed.
End dict_lemmas.

(** ** Stepped slices *)

Section slice_lemmas.
Context {A : Type}.
Implicit Types (l : list A).

Lemma omap_lookup_total {B} (f : nat → option B) (ks : list nat) j :
  Forall (λ k, is_Some (f k)) ks → omap f ks !! j = ks !! j ≫= f.
Proof.
  intros Hall. revert j. induction Hall as [|k ks [y Hy] _ IH]; intros j; [done|].
  cbn [omap list_omap]. rewrite Hy. destruct j as [|j]; simpl; [done|apply IH].
Qed.

Lemma length_omap_total {B} (f : nat → option B) (ks : list nat) :
  Forall (λ k, is_Some (f k)) ks → length (omap f ks) = length ks.
Proof.
  induction 1 as [|k ks [y Hy] _ IH]; [done|].
  cbn [omap list_omap]. rewrite Hy. simpl. by f_equal.
Qed.

Lemma slice_step_index_lt n start step j :
  0 < step → j < slice_step_length n start step → start + j * step < n.
Proof.
  unfold slice_step_length. intros Hstep. case_decide as Hlt; [|lia].
  intros Hj.
  assert (j ≤ (n - start - 1) `div` step) as Hle by lia.
  pose proof (Nat.Div0.mul_div_le (n - start - 1) step) as Hdiv.
  assert (j * step ≤ (n - start - 1) `div` step * step) by (apply Nat.mul_le_mono_r; lia).
  lia.
Qed.

Lemma slice_step_index_ge n start step j :
  0 < step → slice_step_length n start step ≤ j → n ≤ start + j * step.
Proof.
  unfold slice_step_length. intros Hstep. case_decide as Hlt; [|lia].
  intros Hj.
  assert ((n - start - 1) `div` step < j) as Hle by lia.
  destruct (decide (step * j ≤ n - start - 1)) as [Hc|Hc]; [|lia].
  apply Nat.div_le_lower_bound in Hc; lia.
Qed.

Lemma slice_step_all_Some l start step :
  0 < step →
  Forall (λ k, is_Some (l !! (start + k * step)))
         (seq 0 (slice_step_length (length l) start step)).
Proof.
  intros Hstep. apply Forall_forall. intros k Hk%elem_of_seq.
  apply lookup_lt_is_Some. apply slice_step_index_lt; [done|lia].
Qed.

Lemma length_slice_step l start step :
  0 < step → length (slice_step l start step) = slice_step_length (length l) start step.
Proof.
  intros Hstep. unfold slice_step.
  rewrite length_omap_total by by apply slice_step_all_Some.
  apply length_seq.
Qed.

(** The [j]-th element of [l[start::step]] is [l[start + j * step]]. *)
Lemma slice_step_lookup l start step j :
  0 < step → slice_step l start step !! j = l !! (start + j * step).
Proof.
  intros Hstep. unfold slice_step.
  rewrite omap_lookup_total by by apply slice_step_all_Some.
  destruct (decide (j < slice_step_length (length l) start step)) as [Hlt|Hge].
  - by rewrite lookup_seq_lt.
  - rewrite lookup_seq_ge by lia. simpl. symmetry. apply lookup_ge_None.
    apply slice_step_index_ge; [done|lia].
Qed.

Lemma every_lookup step k l j :
  0 < step → every step k l !! j = l !! (k + j * step).
Proof.
  intros Hstep. revert k j. induction l as [|x l IH]; intros k j; [done|].
  destruct k as [|k]; simpl.
  - destruct j as [|j]; simpl; [done|].
    rewrite IH. replace (step + j * step) with (S (step - 1 + j * step)) by lia. done.
  - apply IH.
Qed.

Lemma slice_step_every l start step :
  0 < step → slice_step l start step = every step start l.
Proof.
  intros Hstep. apply list_eq. intros j.
  by rewrite slice_step_lookup, every_lookup.
Qed.

Lemma every_nil_concat step (ks : list nat) :
  concat ((λ k, every step k ([] : list A)) <$> ks) = [].
Proof. induction ks as [|k ks IH]; [done|]. simpl. apply IH. Qed.

(** Dealing a list round-robin into [step] hands loses and repeats nothing. *)
Lemma every_concat_Permutation step l :
  0 < step → concat ((λ k, every step k l) <$> seq 0 step) ≡ₚ l.
Proof.
  intros Hstep. induction l as [|x l IH].
  - by rewrite every_nil_concat.
  - destruct step as [|n]; [lia|].
    rewrite seq_S, fmap_app, concat_app in IH. simpl in IH.
    rewrite app_nil_r in IH.
    cbn [seq fmap list_fmap concat every].
    rewrite <-fmap_S_seq, <-list_fmap_compose.
    replace (S n - 1) with n by lia. simpl.
    constructor. etrans; [apply Permutation_app_comm|]. exact IH.
Qed.

Lemma slice_step_concat_Permutation l step :
  0 < step → concat ((λ i, slice_step l i step) <$> seq 0 step) ≡ₚ l.
Proof.
  intros Hstep.
  rewrite (list_fmap_ext _ (λ k, every step k l)).
  - by apply every_concat_Permutation.
  - intros _ i _. by apply slice_step_every.
Qed.

(** The size of hand [i] of [n] cards dealt into [step] hands. *)
Lemma slice_step_length_div_mod n i step :
  i < step →
  slice_step_length n i step = n `div` step + (if decide (i < n `mod` step) then 1 else 0).
Proof.
  intros Hi. unfold slice_step_length.
  pose proof (Nat.div_mod_eq n step) as Hn.
  pose proof (Nat.mod_upper_bound n step ltac:(lia)) as Hm.
  set (q := n `div` step) in *. set (r := n `mod` step) in *.
  case_decide as Hlt; case_decide as Hr; try lia.
  - assert ((n - i - 1) `div` step = q) as ->; [|lia].
    symmetry. apply (Nat.div_unique _ _ _ (r - i - 1)); lia.
  - destruct q as [|q']; [lia|].
    assert ((n - i - 1) `div` step = q') as ->; [|lia].
    symmetry. apply (Nat.div_unique _ _ _ (step + r - i - 1)); lia.
  - assert (q = 0) as -> by nia. lia.
Qed.
End slice_lemmas.

(** ** Shuffling *)

Section shuffle_lemmas.
Context `{RS : RandomSource} {A : Type}.
Implicit Types (x : list A) (s : rng_state).

Lemma swap_Permutation i j x : swap i j x ≡ₚ x.
Proof.
  unfold swap. destruct (x !! i) as [a|] eqn:Hi; [|done].
  destruct (x !! j) as [b|] eqn:Hj; [|done].
  by apply Permutation_insert_swap.
Qed.

(** The exchange of an iteration of [shuffle] is between two positions of
    the list: no subscript is out of range. *)
Lemma shuffle_step_in_range i x s :
  i < length x →
  ∃ a b, x !! i = Some a
       ∧ x !! (randbelow (i + 1) s).1 = Some b
       ∧ (shuffle_step (x, s) i).1 = <[(randbelow (i + 1) s).1:=a]> (<[i:=b]> x).
Proof.
  intros Hi. pose proof (randbelow_lt (i + 1) s ltac:(lia)) as Hj.
  unfold shuffle_step. simpl. destruct (randbelow (i + 1) s) as [j s']. simpl in *.
  destruct (lookup_lt_is_Some_2 x i Hi) as [a Ha].
  destruct (lookup_lt_is_Some_2 x j ltac:(lia)) as [b Hb].
  exists a, b. split_and!; [done..|]. unfold swap. by rewrite Ha, Hb.
Qed.

Lemma shuffle_steps_Permutation (idx : list nat) x s :
  (foldl shuffle_step (x, s) idx).1 ≡ₚ x.
Proof.
  revert x s. induction idx as [|i idx IH]; intros x s; [done|].
  simpl. unfold shuffle_step at 2. simpl.
  destruct (randbelow (i + 1) s) as [j s'].
  rewrite IH. apply swap_Permutation.
Qed.

(** [random.shuffle] rearranges the list: nothing is lost or repeated. *)
Lemma shuffle_Permutation x s : (shuffle x s).1 ≡ₚ x.
Proof. apply shuffle_steps_Permutation. Qed.

Lemma shuffle_length x s : length (shuffle x s).1 = length x.
Proof. by rewrite shuffle_Permutation. Qed.
End shuffle_lemmas.

Section dict_elem.
Context {K V : Type} `{EqDecision K}.

Lemma dict_set_elem (k k' : K) (v v' : V) (d : dict K V) :
  (k', v') ∈ dict_set k v d → (k', v') = (k, v) ∨ (k', v') ∈ d.
Proof.
  induction d as [|[k0 v0] d IH]; simpl.
  - intros ->%list_elem_of_singleton. by left.
  - case_decide as Hk; subst; rewrite !elem_of_cons.
    + intros [?|?]; [by left|right; by right].
    + intros [?|?]; [right; by left|]. destruct IH as [?|?]; auto.
Qed.

(** A stored pair is one of the pairs the dictionary was built from. *)
Lemma dict_from_items_elem (items : list (K * V)) (k : K) (v : V) :
  (k, v) ∈ dict_from_items items → (k, v) ∈ items.
Proof.
  induction items as [|[k0 v0] items IH] using rev_ind; [done|].
  rewrite dict_from_items_snoc, elem_of_app, list_elem_of_singleton.
  intros [?|?]%dict_set_elem; auto.
Qed.
End dict_elem.

(** ** Round-robin dealing *)

Section round_robin_lemmas.
Context {G A : Type} `{EqDecision G}.
Implicit Types (groups : list G) (xs : list A).

Lemma imap_fst_deal groups (f : nat → list A) :
  (imap (λ i group, (group, f i)) groups).*1 = groups.
Proof.
  apply list_eq. intros i. rewrite list_lookup_fmap, list_lookup_imap.
  by destruct (groups !! i).
Qed.

Lemma imap_snd_deal groups (f : nat → list A) :
  (imap (λ i group, (group, f i)) groups).*2 = f <$> seq 0 (length groups).
Proof.
  apply list_eq. intros i. rewrite !list_lookup_fmap, list_lookup_imap.
  destruct (groups !! i) as [g|] eqn:Hi.
  - apply lookup_lt_Some in Hi. by rewrite lookup_seq_lt.
  - apply lookup_ge_None in Hi. by rewrite lookup_seq_ge.
Qed.

(** With distinct group names the groups are the keys, in declared order,
    and group [i] holds the [i]-th hand. *)
Lemma round_robin_NoDup groups xs :
  NoDup groups →
  round_robin groups xs = imap (λ i group, (group, slice_step xs i (length groups))) groups.
Proof.
  intros Hnd. unfold round_robin. apply dict_from_items_NoDup.
  by rewrite (imap_fst_deal groups (λ i, slice_step xs i (length groups))).
Qed.

Lemma round_robin_keys groups xs :
  NoDup groups → dict_keys (round_robin groups xs) = groups.
Proof.
  intros Hnd. rewrite round_robin_NoDup by done.
  apply (imap_fst_deal groups (λ i, slice_step xs i (length groups))).
Qed.

Lemma round_robin_values groups xs :
  NoDup groups →
  dict_values (round_robin groups xs) =
  (λ i, slice_step xs i (length groups)) <$> seq 0 (length groups).
Proof.
  intros Hnd. rewrite round_robin_NoDup by done.
  apply (imap_snd_deal groups (λ i, slice_step xs i (length groups))).
Qed.

Lemma round_robin_get groups xs i g :
  NoDup groups → groups !! i = Some g →
  dict_get g (round_robin groups xs) = Some (slice_step xs i (length groups)).
Proof.
  intros Hnd Hi. apply dict_get_elem_NoDup.
  - by rewrite round_robin_keys.
  - rewrite round_robin_NoDup by done.
    apply list_elem_of_lookup. exists i. by rewrite list_lookup_imap, Hi.
Qed.

(** Coverage of the deal: with distinct names and at least one group, the
    hands together are the dealt list. *)
Lemma round_robin_Permutation groups xs :
  NoDup groups → groups ≠ [] → concat (dict_values (round_robin groups xs)) ≡ₚ xs.
Proof.
  intros Hnd Hne. rewrite round_robin_values by done.
  apply slice_step_concat_Permutation. destruct groups; [done|simpl; lia].
Qed.

(** Whatever the names, each stored hand is one of the hands of the deal. *)
Lemma round_robin_elem groups xs g ys :
  (g, ys) ∈ round_robin groups xs →
  ∃ i, i < length groups ∧ groups !! i = Some g ∧ ys = slice_step xs i (length groups).
Proof.
  unfold round_robin. generalize (length groups) at 1 3 as n. intros n.
  intros Hin.
  apply dict_from_items_elem in Hin. apply list_elem_of_lookup in Hin as [i Hi].
  rewrite list_lookup_imap in Hi.
  destruct (groups !! i) as [g'|] eqn:Hg; simplify_eq/=.
  exists i. split_and!; [|done..]. by eapply lookup_lt_Some.
Qed.
End round_robin_lemmas.

(** ** Blocks *)

Section block_lemmas.
Context {A : Type}.
Implicit Types (xs : list A).

Lemma range_length_pos (n : nat) (b : Z) :
  (1 ≤ b)%Z → range_length 0 (Z.of_nat n) b = (n + Z.to_nat b - 1) `div` Z.to_nat b.
Proof.
  intros Hb. unfold range_length. rewrite decide_True by lia.
  assert (∃ c : nat, b = Z.of_nat c ∧ 1 ≤ c) as (c & -> & Hc).
  { exists (Z.to_nat b). lia. }
  rewrite Nat2Z.id. case_decide as Hn.
  - replace (Z.of_nat n - 0 - 1)%Z with (Z.of_nat (n - 1)) by lia.
    rewrite <-Nat2Z.inj_div. 
    replace (Z.of_nat ((n - 1) `div` c) + 1)%Z with (Z.of_nat ((n - 1) `div` c + 1)) by lia.
    rewrite Nat2Z.id.
    replace (n + c - 1) with ((n - 1) + 1 * c) by lia.
    rewrite Nat.div_add by lia. done.
  - assert (n = 0) as -> by lia. simpl. symmetry. apply Nat.div_small. lia.
Qed.

Lemma slice_nonneg xs (i b : nat) :
  slice xs (Z.of_nat i) (Z.of_nat i + Z.of_nat b) = take b (drop i xs).
Proof.
  unfold slice, clip_index. rewrite !decide_False by lia.
  destruct (decide (i ≤ length xs)) as [Hi|Hi].
  - replace (Z.to_nat (Z.of_nat i `min` Z.of_nat (length xs))) with i by lia.
    destruct (decide (i + b ≤ length xs)) as [Hb|Hb].
    + f_equal. lia.
    + rewrite !take_ge; [done|rewrite length_drop; lia..].
  - rewrite !drop_ge by lia. by rewrite !take_nil.
Qed.
End block_lemmas.

Section make_blocks.
Context {P : Type}.
Implicit Types (xs : list P).

Lemma make_blocks_pos xs (block_size : Z) :
  (1 ≤ block_size)%Z →
  make_blocks xs block_size = Ok (blocks_of (Z.to_nat block_size) xs).
Proof.
  intros Hb. unfold make_blocks, range. rewrite decide_False by lia. simpl.
  f_equal. rewrite range_length_pos by done. unfold blocks_of.
  rewrite <-list_fmap_compose. apply list_fmap_ext. intros _ k _. simpl.
  replace (0 + Z.of_nat k * block_size)%Z with (Z.of_nat (k * Z.to_nat block_size)) by lia.
  replace (Z.of_nat (k * Z.to_nat block_size) + block_size)%Z
    with (Z.of_nat (k * Z.to_nat block_size) + Z.of_nat (Z.to_nat block_size))%Z by lia.
  apply slice_nonneg.
Qed.

Lemma make_blocks_zero xs : make_blocks xs 0 = Raise ValueError.
Proof. done. Qed.

Lemma make_blocks_neg xs (block_size : Z) :
  (block_size < 0)%Z → make_blocks xs block_size = Ok [].
Proof.
  intros Hb. unfold make_blocks, range, range_length.
  rewrite !decide_False by lia. done.
Qed.

Lemma concat_blocks_take (b : nat) xs m :
  concat ((λ k, take b (drop (k * b) xs)) <$> seq 0 m) = take (m * b) xs.
Proof.
  induction m as [|m IH]; [by rewrite take_0|].
  rewrite seq_S, fmap_app, concat_app, IH. simpl. rewrite app_nil_r.
  rewrite take_take_drop. f_equal. lia.
Qed.

(** The blocks, one after the other, are the list. *)
Lemma concat_blocks_of (b : nat) xs : 1 ≤ b → concat (blocks_of b xs) = xs.
Proof.
  intros Hb. unfold blocks_of. rewrite concat_blocks_take. apply take_ge.
  pose proof (Nat.div_mod_eq (length xs + b - 1) b).
  pose proof (Nat.mod_upper_bound (length xs + b - 1) b). lia.
Qed.

Lemma length_blocks_of (b : nat) xs :
  length (blocks_of b xs) = (length xs + b - 1) `div` b.
Proof. unfold blocks_of. by rewrite length_fmap, length_seq. Qed.

Lemma blocks_of_lookup (b : nat) xs k block :
  blocks_of b xs !! k = Some block → block = take b (drop (k * b) xs).
Proof.
  unfold blocks_of. rewrite list_lookup_fmap.
  intros Hk. destruct (seq _ _ !! k) as [k'|] eqn:Hs; [|done].
  apply lookup_seq in Hs as [-> _]. by injection Hk.
Qed.

(** Every block is full, except the last one, which holds at least one
    element. *)
Lemma blocks_of_length (b : nat) xs k block :
  1 ≤ b → blocks_of b xs !! k = Some block →
  1 ≤ length block ≤ b ∧ (S k < length (blocks_of b xs) → length block = b).
Proof.
  intros Hb Hk. pose proof (lookup_lt_Some _ _ _ Hk) as Hlt.
  apply blocks_of_lookup in Hk as ->.
  rewrite length_blocks_of in *. rewrite length_take, length_drop.
  pose proof (Nat.div_mod_eq (length xs + b - 1) b).
  pose proof (Nat.mod_upper_bound (length xs + b - 1) b).
  split; [nia|]. intros Hk. nia.
Qed.
End make_blocks.

(* ===================================================================== *)
(** * What each strategy computes *)
(* ===================================================================== *)

Section strategies.
Context `{RS : RandomSource} {P G V K : Type}.
Context `{Countable P, EqDecision G, EqDecision V, EqDecision K}.
Implicit Types (w : world (P := P)) (self : Randomizations (G := G)).

Lemma shuffle_each_Forall2 {A} (blocks : list (list A)) s :
  Forall2 (≡ₚ) (shuffle_each blocks s).1 blocks.
Proof.
  revert s. induction blocks as [|block rest IH]; intros s; simpl; [constructor|].
  pose proof (shuffle_Permutation block s) as Hp.
  destruct (shuffle block s) as [block' s1]. specialize (IH s1).
  destruct (shuffle_each rest s1) as [rest' s2]. by constructor.
Qed.

Lemma shuffle_each_concat_Permutation {A} (blocks : list (list A)) s :
  concat (shuffle_each blocks s).1 ≡ₚ concat blocks.
Proof.
  induction (shuffle_each_Forall2 blocks s) as [|???? Hp _ IH]; [done|].
  simpl. by rewrite Hp, IH.
Qed.

Lemma shuffle_blocks_from (blocks : list (list P)) (acc : list P) w :
  foldM (λ randomized_blocks block,
           bind (shuffle_new block) (λ block', ret (randomized_blocks ++ block')))
        acc blocks w
  = (Ok (acc ++ concat (shuffle_each blocks (py_random w)).1),
     with_py_random (shuffle_each blocks (py_random w)).2 w).
Proof.
  revert acc w. induction blocks as [|block rest IH]; intros acc w.
  - simpl. unfold ret, with_py_random. rewrite app_nil_r. by destruct w.
  - simpl. unfold bind at 1. unfold bind at 1. unfold shuffle_new at 1.
    destruct (shuffle block (py_random w)) as [block' s1] eqn:Hs. unfold ret at 1.
    rewrite IH. simpl.
    destruct (shuffle_each rest s1) as [rest' s2]. simpl.
    by rewrite <-app_assoc.
Qed.

Lemma shuffle_blocks_run (blocks : list (list P)) w :
  shuffle_blocks blocks w
  = (Ok (concat (shuffle_each blocks (py_random w)).1),
     with_py_random (shuffle_each blocks (py_random w)).2 w).
Proof. unfold shuffle_blocks. by rewrite shuffle_blocks_from. Qed.

Lemma simple_randomization_run self w :
  simple_randomization self w
  = let sh := shuffle (heap w !!! participants self) (py_random w) in
    (Ok (round_robin (groups self) sh.1),
     {| heap := <[participants self := sh.1]> (heap w);
        py_random := sh.2; np_random := np_random w |}).
Proof.
  unfold simple_randomization, bind, shuffle_at, load, ret.
  destruct (shuffle _ _) as [x s]. simpl.
  by rewrite lookup_total_insert_eq.
Qed.

Lemma block_randomization_run self (block_size : Z) w :
  block_randomization self block_size w
  = match make_blocks (heap w !!! participants self) block_size with
    | Ok blocks =>
        (Ok (round_robin (groups self) (concat (shuffle_each blocks (py_random w)).1)),
         with_py_random (shuffle_each blocks (py_random w)).2 w)
    | Raise e => (Raise e, w)
    end.
Proof.
  unfold block_randomization, bind, load, lift, ret.
  destruct (make_blocks _ _) as [blocks|e]; [|done].
  by rewrite shuffle_blocks_run.
Qed.

Lemma permuted_block_randomization_run self (block_sizes : list Z) w :
  permuted_block_randomization self block_sizes w
  = match make_permuted_blocks (heap w !!! participants self) block_sizes with
    | Ok blocks =>
        (Ok (round_robin (groups self) (concat (shuffle_each blocks (py_random w)).1)),
         with_py_random (shuffle_each blocks (py_random w)).2 w)
    | Raise e => (Raise e, w)
    end.
Proof.
  unfold permuted_block_randomization, bind, load, lift, ret.
  destruct (make_permuted_blocks _ _) as [blocks|e]; [|done].
  by rewrite shuffle_blocks_run.
Qed.
End strategies.

(** ** [min] with a key *)

Section min_by_lemmas.
Context {A : Type} (key : A → nat).
Implicit Types (l : list A).

Lemma min_by_cons x l : min_by key (x :: l) = Ok (foldl (min_step key) x l).
Proof. done. Qed.

Lemma min_by_snoc l y :
  l ≠ [] → min_by key (l ++ [y]) = result_bind (min_by key l) (λ m, Ok (min_step key m y)).
Proof. destruct l as [|x l]; [done|]. intros _. simpl. by rewrite foldl_app. Qed.

Lemma min_by_is_Ok l : l ≠ [] → ∃ m, min_by key l = Ok m.
Proof. destruct l; [done|]. intros _. by eexists. Qed.

Lemma min_by_Ok_ne_nil l m : min_by key l = Ok m → l ≠ [].
Proof. by destruct l. Qed.

(** The result is the first element, in the order of the iteration, whose
    key is the least: no element has a smaller key and every element before
    it has a strictly greater one. *)
Lemma min_by_first_min l m :
  min_by key l = Ok m →
  ∃ i, l !! i = Some m
     ∧ (∀ y, y ∈ l → key m ≤ key y)
     ∧ (∀ j y, j < i → l !! j = Some y → key m < key y).
Proof.
  revert m. induction l as [|y l IH] using rev_ind; [done|].
  intros m. destruct (decide (l = [])) as [->|Hne].
  { simpl. intros [= <-]. exists 0. split_and!; [done| |lia].
    by intros ? ->%list_elem_of_singleton. }
  rewrite min_by_snoc by done.
  destruct (min_by key l) as [m0|] eqn:Hm0; [|done]. simpl. intros [= <-].
  destruct (IH m0 eq_refl) as (i & Hi & Hmin & Hfirst).
  unfold min_step. case_decide as Hlt.
  - exists (length l). split_and!.
    + by rewrite lookup_app_r, Nat.sub_diag.
    + intros z [Hz| ->%list_elem_of_singleton]%elem_of_app; [|lia].
      specialize (Hmin z Hz). lia.
    + intros j z Hj Hz. rewrite lookup_app_l in Hz by done.
      assert (z ∈ l) as Hin by (apply list_elem_of_lookup; eauto).
      specialize (Hmin z Hin). lia.
  - exists i. pose proof (lookup_lt_Some _ _ _ Hi) as Hil. split_and!.
    + by rewrite lookup_app_l.
    + intros z [Hz| ->%list_elem_of_singleton]%elem_of_app; [auto|lia].
    + intros j z Hj Hz. rewrite lookup_app_l in Hz by lia. eauto.
Qed.
End min_by_lemmas.

Section min_by_keys.
Context {K V : Type} `{EqDecision K} (key : K → nat) (f : K → V).

Lemma fst_comprehension (ks : list K) : ((λ k, (k, f k)) <$> ks).*1 = ks.
Proof. induction ks as [|k ks IH]; [done|]. csimpl. by f_equal. Qed.

(** Iterating over the keys of [{k: f(k) for k in ks}] finds the same first
    minimum as iterating over [ks]: a repeated name changes nothing. *)
Lemma min_by_comprehension_keys (ks : list K) :
  min_by key (dict_keys (dict_from_items ((λ k, (k, f k)) <$> ks))) = min_by key ks.
Proof.
  induction ks as [|k ks IH] using rev_ind; [done|].
  rewrite fmap_app. change ((λ k, (k, f k)) <$> [k]) with [(k, f k)].
  rewrite dict_from_items_snoc, dict_keys_set.
  destruct (decide (ks = [])) as [->|Hne]; [done|].
  rewrite (min_by_snoc key ks) by done.
  destruct (min_by_is_Ok key ks Hne) as [m Hm]. rewrite Hm in IH |- *. simpl.
  case_decide as Hin.
  - rewrite IH. f_equal. unfold min_step. rewrite decide_False; [done|].
    apply (proj1 (dict_keys_from_items_elem _ _)) in Hin.
    rewrite fst_comprehension in Hin.
    destruct (min_by_first_min key ks m Hm) as (_ & _ & Hmin & _).
    specialize (Hmin k Hin). lia.
  - rewrite min_by_snoc by (by eapply min_by_Ok_ne_nil). by rewrite IH.
Qed.

Lemma dict_get_comprehension (ks : list K) k :
  k ∈ ks → dict_get k (dict_from_items ((λ k, (k, f k)) <$> ks)) = Some (f k).
Proof.
  induction ks as [|k' ks IH] using rev_ind; [by intros ?%elem_of_nil|].
  rewrite fmap_app. change ((λ k, (k, f k)) <$> [k']) with [(k', f k')].
  rewrite dict_get_from_items_snoc.
  intros [Hin| ->%list_elem_of_singleton]%elem_of_app.
  - case_decide; subst; auto.
  - by rewrite decide_True.
Qed.

Lemma dict_get_comprehension_None (ks : list K) k :
  k ∉ ks → dict_get k (dict_from_items ((λ k, (k, f k)) <$> ks)) = None.
Proof.
  intros Hnin. apply dict_get_None.
  by rewrite dict_keys_from_items_elem, fst_comprehension.
Qed.
End min_by_keys.

Section min_by_ext.
Context {A : Type}.

Lemma min_by_elem (key : A → nat) (l : list A) m : min_by key l = Ok m → m ∈ l.
Proof.
  intros (i & Hi & _)%min_by_first_min. apply list_elem_of_lookup. eauto.
Qed.

Lemma min_by_ext (key key' : A → nat) (l : list A) :
  (∀ x, x ∈ l → key x = key' x) → min_by key l = min_by key' l.
Proof.
  induction l as [|y l IH] using rev_ind; [done|]. intros Hext.
  destruct (decide (l = [])) as [->|Hne]; [done|].
  rewrite !min_by_snoc by done.
  rewrite <-IH by (intros; apply Hext, elem_of_app; auto).
  destruct (min_by key l) as [m|] eqn:Hm; [|done]. simpl. f_equal.
  unfold min_step. apply min_by_elem in Hm.
  rewrite <-(Hext m), <-(Hext y); [done|apply elem_of_app..]; [right; left|by left].
Qed.
End min_by_ext.

Lemma result_mapM_Ok {A B} (f : A → result B) (g : A → B) (l : list A) :
  Forall (λ x, f x = Ok (g x)) l → result_mapM f l = Ok (g <$> l).
Proof. induction 1 as [|x l Hx _ IH]; [done|]. simpl. by rewrite Hx, IH. Qed.

(** ** The greedy balancing loop *)

Section minimization_lemmas.
Context {P G V : Type} `{Countable P, EqDecision G, EqDecision V}.
Implicit Types (groups : list G) (covariates : gmap P V) (a : dict G (list P)).

Lemma imbalance_score_matching covariates v (members : list P) :
  Forall (λ q, is_Some (covariates !! q)) members →
  imbalance_score covariates v members = Ok (matching covariates v members).
Proof.
  intros Hall. unfold imbalance_score.
  rewrite (result_mapM_Ok _ (λ q, bool_decide (covariates !! q = Some v))).
  - simpl. f_equal. unfold matching. clear Hall.
    induction members as [|q members IH]; [done|]. csimpl.
    rewrite !filter_cons. destruct (decide (covariates !! q = Some v)) as [Hq|Hq].
    + rewrite bool_decide_eq_true_2 by done. rewrite decide_True by done. simpl. by f_equal.
    + rewrite bool_decide_eq_false_2 by done. rewrite decide_False by done. done.
  - eapply Forall_impl; [exact Hall|]. intros q [v' Hq]. simpl. rewrite Hq. f_equal.
    apply bool_decide_ext. naive_solver.
Qed.

Lemma empty_allocation_ok groups covariates :
  allocation_ok groups covariates (empty_allocation groups).
Proof.
  split.
  - intros g Hg. apply (proj2 (dict_keys_from_items_elem _ _)).
    by rewrite fst_comprehension.
  - intros g ms Hin%dict_from_items_elem.
    apply list_elem_of_fmap in Hin as (g' & [= -> ->] & _). constructor.
Qed.

Lemma empty_allocation_values groups :
  concat (dict_values (empty_allocation (P := P) groups)) = [].
Proof.
  assert (∀ x, x ∈ dict_values (empty_allocation (P := P) groups) → x = []) as Hall.
  { intros x (y & -> & Hy)%list_elem_of_fmap. destruct y as [g ms].
    apply dict_from_items_elem, list_elem_of_fmap in Hy as (g' & [= -> ->] & _). done. }
  induction (dict_values (empty_allocation (P := P) groups)) as [|x l IH]; [done|].
  simpl. rewrite (Hall x) by left. apply IH. intros y Hy. apply Hall. by right.
Qed.

Lemma dict_get_members_of g ms a : dict_get g a = Some ms → members_of g a = ms.
Proof. unfold members_of. by intros ->. Qed.

(** One participant: the step succeeds, and appends the participant to the
    first group of the declared order with the least number of members
    sharing the participant's covariate value. *)
Lemma minimization_step_Ok groups covariates a (p : P) (v : V) :
  groups ≠ [] → allocation_ok groups covariates a → covariates !! p = Some v →
  ∃ m, min_by (λ g, matching covariates v (members_of g a)) groups = Ok m
     ∧ minimization_step groups covariates a p
       = Ok (dict_set m (members_of m a ++ [p]) a).
Proof.
  intros Hne [Hkeys Hcov] Hp.
  set (score := λ g, matching covariates v (members_of g a)).
  destruct (min_by_is_Ok score groups Hne) as [m Hm]. exists m. split; [done|].
  unfold minimization_step. rewrite Hp.
  rewrite (result_mapM_Ok _ (λ g, (g, score g))); last first.
  { apply Forall_forall. intros g Hg. apply Hkeys, dict_get_is_Some in Hg as [ms Hms].
    unfold dict_subscript. rewrite Hms. simpl.
    rewrite imbalance_score_matching by (eapply Hcov, dict_get_Some_elem, Hms).
    simpl. unfold score. by rewrite (dict_get_members_of _ _ _ Hms). }
  simpl. rewrite (min_by_comprehension_keys _ score).
  rewrite (min_by_ext _ score); last first.
  { intros g Hg. by rewrite (dict_get_comprehension score). }
  rewrite Hm. simpl. unfold dict_update.
  apply min_by_elem, Hkeys, dict_get_is_Some in Hm as [ms Hms].
  rewrite Hms. by rewrite (dict_get_members_of _ _ _ Hms).
Qed.

Lemma allocation_ok_append groups covariates a (p : P) m :
  allocation_ok groups covariates a → is_Some (covariates !! p) → m ∈ dict_keys a →
  allocation_ok groups covariates (dict_set m (members_of m a ++ [p]) a).
Proof.
  intros [Hkeys Hcov] Hp Hm. split.
  - intros g Hg. rewrite dict_keys_set_in by done. auto.
  - intros g ms [[= -> ->]|Hin]%dict_set_elem; [|eauto].
    apply Forall_app. split; [|by constructor].
    apply dict_get_is_Some in Hm as [ms Hms].
    rewrite (dict_get_members_of _ _ _ Hms). eapply Hcov, dict_get_Some_elem, Hms.
Qed.

(** Appending to the list of a key adds the element to the allocation and
    moves nothing. *)
Lemma dict_set_append_values a (p : P) m ms :
  dict_get m a = Some ms →
  concat (dict_values (dict_set m (ms ++ [p]) a)) ≡ₚ concat (dict_values a) ++ [p].
Proof.
  unfold dict_values. induction a as [|[g xs] a IH]; [done|]. simpl.
  case_decide as Hg.
  - intros [= ->]. csimpl. rewrite <-!app_assoc. f_equiv. apply Permutation_app_comm.
  - intros Hget. csimpl. rewrite IH by done. by rewrite app_assoc.
Qed.

Lemma greedy_snoc groups covariates a (ps : list P) p :
  greedy groups covariates a (ps ++ [p])
  = result_bind (greedy groups covariates a ps) (λ a', minimization_step groups covariates a' p).
Proof. unfold greedy. by rewrite foldl_app. Qed.

(** The loop succeeds when every participant has a covariate value, keeps
    the invariant and assigns every participant once. *)
Lemma greedy_Ok groups covariates (ps : list P) :
  groups ≠ [] → Forall (λ q, is_Some (covariates !! q)) ps →
  ∃ a, greedy groups covariates (empty_allocation groups) ps = Ok a
     ∧ allocation_ok groups covariates a
     ∧ concat (dict_values a) ≡ₚ ps.
Proof.
  intros Hne. induction ps as [|p ps IH] using rev_ind; intros Hall.
  - exists (empty_allocation groups). split_and!; [done| |].
    + apply empty_allocation_ok.
    + by rewrite empty_allocation_values.
  - apply Forall_app in Hall as [Hps Hp]. apply Forall_singleton in Hp as [v Hv].
    destruct (IH Hps) as (a & Ha & Hok & Hperm).
    destruct (minimization_step_Ok groups covariates a p v Hne Hok Hv) as (m & Hm & Hstep).
    eexists. rewrite greedy_snoc, Ha. simpl. split_and!; [exact Hstep| |].
    + apply allocation_ok_append; [done|by eexists|].
      apply min_by_elem in Hm. by apply Hok.
    + apply min_by_elem, Hok, dict_get_is_Some in Hm as [ms Hms].
      rewrite (dict_get_members_of _ _ _ Hms).
      rewrite dict_set_append_values by done. by rewrite Hperm.
Qed.
End minimization_lemmas.

Section coverage.
Context `{RS : RandomSource} {P G V : Type}.
Context `{Countable P, EqDecision G, EqDecision V}.
Implicit Types (w : world (P := P)) (self : Randomizations (G := G)).

Lemma minimization_run self (covariates : gmap P V) w :
  minimization self covariates w
  = (greedy (groups self) covariates (empty_allocation (groups self))
            (heap w !!! participants self), w).
Proof. done. Qed.

End coverage.

(** ** Group sizes *)

Section sizes.
Context {G : Type} `{EqDecision G}.

Lemma dict_get_fmap_NoDup {V W} (f : V → W) (d : dict G V) g :
  dict_get g ((λ item, (item.1, f item.2)) <$> d) = f <$> dict_get g d.
Proof.
  induction d as [|[k v] d IH]; [done|]. csimpl. case_decide; [done|apply IH].
Qed.

Lemma randomization_check_get {A} (d : dict G (list A)) g :
  NoDup (dict_keys d) → dict_get g (randomization_check d) = length <$> dict_get g d.
Proof.
  intros Hnd. unfold randomization_check, dict_items.
  rewrite dict_from_items_NoDup.
  - apply (dict_get_fmap_NoDup length).
  - rewrite <-list_fmap_compose. exact Hnd.
Qed.

Lemma round_robin_keys_NoDup {A} (groups : list G) (xs : list A) :
  NoDup (dict_keys (round_robin groups xs)).
Proof. apply dict_from_items_NoDup_keys. Qed.

(** The hands of a deal differ in size by at most one. *)
Lemma round_robin_balanced {A} (groups : list G) (xs : list A) :
  balanced (randomization_check (round_robin groups xs)).
Proof.
  intros g1 g2 n1 n2.
  rewrite !randomization_check_get by apply round_robin_keys_NoDup.
  destruct (dict_get g1 _) as [ys1|] eqn:H1; [|done].
  destruct (dict_get g2 _) as [ys2|] eqn:H2; [|done].
  intros [= <-] [= <-].
  apply dict_get_Some_elem, round_robin_elem in H1 as (i1 & Hi1 & _ & ->).
  apply dict_get_Some_elem, round_robin_elem in H2 as (i2 & Hi2 & _ & ->).
  rewrite !length_slice_step by lia.
  rewrite !slice_step_length_div_mod by done.
  repeat case_decide; lia.
Qed.

(** With distinct names, the group declared in position [i] holds
    [n div g] elements, and one more when [i < n mod g]. *)
Lemma round_robin_size {A} (groups : list G) (xs : list A) i g :
  NoDup groups → groups !! i = Some g →
  dict_get g (randomization_check (round_robin groups xs))
  = Some (length xs `div` length groups
          + (if decide (i < length xs `mod` length groups) then 1 else 0)).
Proof.
  intros Hnd Hi. pose proof (lookup_lt_Some _ _ _ Hi) as Hlt.
  rewrite randomization_check_get by apply round_robin_keys_NoDup.
  rewrite (round_robin_get groups xs i g) by done. simpl. f_equal.
  rewrite length_slice_step by lia. by apply slice_step_length_div_mod.
Qed.
End sizes.

(** ** Keys of a comprehension *)

Section key_order.
Context {K : Type} `{EqDecision K}.

Lemma dict_keys_from_items {V} (items : list (K * V)) :
  dict_keys (dict_from_items items) = first_occurrences items.*1.
Proof.
  unfold first_occurrences.
  induction items as [|[k v] items IH] using rev_ind; [done|].
  rewrite dict_from_items_snoc, dict_keys_set, fmap_app, foldl_app, IH. done.
Qed.

Lemma dict_keys_comprehension {V} (f : K → V) (ks : list K) :
  dict_keys (dict_from_items ((λ k, (k, f k)) <$> ks)) = first_occurrences ks.
Proof. by rewrite dict_keys_from_items, fst_comprehension. Qed.

Lemma dict_get_app_notin {V} (d : dict K V) k v k' :
  k' ∉ dict_keys d →
  dict_get k (d ++ [(k', v)]) = if decide (k = k') then Some v else dict_get k d.
Proof.
  unfold dict_keys. induction d as [|[k0 v0] d IH]; csimpl; [done|].
  rewrite not_elem_of_cons. intros [Hne Hnin].
  destruct (decide (k = k0)) as [->|Hk].
  - by rewrite decide_False.
  - by apply IH.
Qed.
End key_order.

(** ** The accumulation of [stratified_randomization] *)

Section extend_groups_lemmas.
Context {P G : Type} `{EqDecision G}.
Implicit Types (sg allocation : dict G (list P)).

(** Every key of the allocation being a key of the accumulator, each group
    of the accumulator is extended by the list the allocation holds for it. *)
Lemma extend_groups_Ok sg allocation :
  NoDup (dict_keys allocation) →
  (∀ g, g ∈ dict_keys allocation → g ∈ dict_keys sg) →
  ∃ sg', extend_groups sg allocation = Ok sg'
       ∧ dict_keys sg' = dict_keys sg
       ∧ ∀ g, dict_get g sg'
              = (λ xs, xs ++ default [] (dict_get g allocation)) <$> dict_get g sg.
Proof.
  unfold extend_groups, dict_items.
  induction allocation as [|[g ys] allocation IH] using rev_ind; intros Hnd Hsub.
  - exists sg. split_and!; [done..|]. intros g. simpl.
    destruct (dict_get g sg); simpl; [|done]. by rewrite app_nil_r.
  - unfold dict_keys in Hnd. rewrite fmap_app in Hnd.
    apply NoDup_app in Hnd as (Hnd & Hnin & _).
    destruct IH as (sg1 & Hsg1 & Hkeys & Hget).
    { done. }
    { intros g' Hg'. apply Hsub. unfold dict_keys. rewrite fmap_app, elem_of_app. by left. }
    assert (g ∉ dict_keys allocation) as Hg.
    { intros Hin. apply (Hnin g Hin). left. }
    assert (g ∈ dict_keys sg1) as Hin1.
    { rewrite Hkeys. apply Hsub. unfold dict_keys. rewrite fmap_app, elem_of_app.
      right. left. }
    rewrite foldl_app. simpl. rewrite Hsg1. simpl. unfold dict_update.
    pose proof Hin1 as [xs Hxs]%dict_get_is_Some. rewrite Hxs.
    eexists. split_and!; [done| |].
    + rewrite dict_keys_set_in by done. done.
    + intros g'. rewrite dict_get_app_notin by done.
      destruct (decide (g' = g)) as [->|Hne].
      * rewrite dict_get_set_eq. rewrite Hget in Hxs.
        apply dict_get_None in Hg. rewrite Hg in Hxs. simpl in Hxs.
        destruct (dict_get g sg) as [xs0|]; simplify_eq/=.
        by rewrite app_nil_r.
      * rewrite dict_get_set_ne by done. apply Hget.
Qed.
End extend_groups_lemmas.

Section first_occurrences_lemmas.
Context {K : Type} `{EqDecision K}.

Lemma first_occurrences_NoDup (ks : list K) : NoDup (first_occurrences ks).
Proof.
  rewrite <-(dict_keys_comprehension (λ _, ()) ks). apply dict_from_items_NoDup_keys.
Qed.

Lemma first_occurrences_elem (ks : list K) k : k ∈ first_occurrences ks ↔ k ∈ ks.
Proof.
  rewrite <-(dict_keys_comprehension (λ _, ()) ks), dict_keys_from_items_elem.
  by rewrite fst_comprehension.
Qed.

Lemma round_robin_dict_keys {A} (groups : list K) (xs : list A) :
  dict_keys (round_robin groups xs) = first_occurrences groups.
Proof.
  unfold round_robin. rewrite dict_keys_from_items.
  by rewrite (imap_fst_deal groups (λ i, slice_step xs i (length groups))).
Qed.
End first_occurrences_lemmas.

Section stratified_lemmas.
Context `{RS : RandomSource} {P G K : Type} `{EqDecision G}.
Implicit Types (w : world (P := P)) (self : Randomizations (G := G)).

(** The loop over the strata, from any accumulator that has the groups as
    keys: it ends without an exception; each stratum adds to the groups
    numbers of participants that differ by at most one; every list of the
    store keeps its elements, and only the member lists can change. *)
Lemma stratified_loop self (strata : dict K loc) (sg : dict G (list P)) w k :
  dict_keys sg = first_occurrences (groups self) →
  spread_at_most k (randomization_check sg) →
  ∃ d w',
    foldM (λ stratified_groups (item : K * loc),
             bind (shuffle_at item.2) (λ _,
             bind (load item.2) (λ ms,
             lift (extend_groups stratified_groups (round_robin (groups self) ms)))))
          sg (dict_items strata) w = (Ok d, w')
    ∧ dict_keys d = first_occurrences (groups self)
    ∧ spread_at_most (k + length strata) (randomization_check d)
    ∧ (∀ l, heap w' !!! l ≡ₚ heap w !!! l)
    ∧ (∀ l, l ∉ dict_values strata → heap w' !!! l = heap w !!! l)
    ∧ np_random w' = np_random w.
Proof.
  unfold dict_items, dict_values.
  revert sg w k. induction strata as [|[name l] strata IH]; intros sg w k Hkeys Hspread.
  - exists sg, w. rewrite Nat.add_0_r. by split_and!.
  - cbn [foldM]. unfold bind at 1. unfold bind at 1. unfold shuffle_at at 1.
    cbn [snd]. destruct (shuffle (heap w !!! l) (py_random w)) as [x s] eqn:Hsh.
    unfold bind at 1. unfold load at 1. cbn [heap].
    rewrite lookup_total_insert_eq. unfold lift at 1.
    destruct (extend_groups_Ok sg (round_robin (groups self) x)) as (sg1 & -> & Hk1 & Hget).
    { apply round_robin_keys_NoDup. }
    { intros g. by rewrite Hkeys, round_robin_dict_keys. }
    set (w1 := {| heap := <[l:=x]> (heap w); py_random := s; np_random := np_random w |}).
    destruct (IH sg1 w1 (k + 1)) as (d & w' & Hrun & Hkd & Hsp & Hperm & Hframe & Hnp).
    { by rewrite Hk1. }
    { intros g1 g2 n1 n2.
      assert (NoDup (dict_keys sg)) as Hnd by (rewrite Hkeys; apply first_occurrences_NoDup).
      assert (NoDup (dict_keys sg1)) as Hnd1 by by rewrite Hk1.
      rewrite !randomization_check_get by done. rewrite !Hget.
      destruct (dict_get g1 sg) as [xs1|] eqn:H1; [|done].
      destruct (dict_get g2 sg) as [xs2|] eqn:H2; [|done].
      simpl. intros [= <-] [= <-]. rewrite !length_app.
      assert (length xs1 ≤ length xs2 + k) as Hold.
      { apply (Hspread g1 g2); rewrite randomization_check_get by done.
        - by rewrite H1.
        - by rewrite H2. }
      assert (∀ g, is_Some (dict_get g sg) →
                   is_Some (dict_get g (round_robin (groups self) x))) as Hin.
      { intros g Hg. apply dict_get_is_Some. rewrite round_robin_dict_keys, <-Hkeys.
        by apply dict_get_is_Some. }
      destruct (Hin g1) as [a1 Ha1]; [by eexists|].
      destruct (Hin g2) as [a2 Ha2]; [by eexists|].
      rewrite Ha1, Ha2. simpl.
      assert (length a1 ≤ length a2 + 1); [|lia].
      apply (round_robin_balanced (groups self) x g1 g2);
        rewrite randomization_check_get by apply round_robin_keys_NoDup.
      - by rewrite Ha1.
      - by rewrite Ha2. }
    exists d, w'. split_and!; [done|done| | | |done].
    + replace (k + length ((name, l) :: strata)) with (k + 1 + length strata)
        by (simpl; lia). done.
    + intros l'. rewrite Hperm. subst w1. cbn [heap].
      destruct (decide (l' = l)) as [->|Hne].
      * rewrite lookup_total_insert_eq.
        pose proof (shuffle_Permutation (heap w !!! l) (py_random w)) as Hp.
        by rewrite Hsh in Hp.
      * by rewrite lookup_total_insert_ne.
    + intros l'. csimpl. rewrite not_elem_of_cons. intros [Hne Hnin].
      rewrite Hframe by done. subst w1. cbn [heap]. by rewrite lookup_total_insert_ne.
Qed.

Lemma empty_allocation_spread (groups : list G) :
  spread_at_most 0 (randomization_check (empty_allocation (P := P) groups)).
Proof.
  intros g1 g2 n1 n2.
  rewrite !randomization_check_get by apply dict_from_items_NoDup_keys.
  unfold empty_allocation.
  destruct (decide (g1 ∈ groups)); destruct (decide (g2 ∈ groups));
    rewrite ?(dict_get_comprehension (λ _, [])), ?(dict_get_comprehension_None (λ _, []))
      by done; simpl; try done.
  intros [= <-] [= <-]. simpl. lia.
Qed.

Lemma stratified_randomization_run self (strata : dict K loc) w :
  ∃ d w',
    stratified_randomization self strata w = (Ok d, w')
    ∧ spread_at_most (length strata) (randomization_check d)
    ∧ (∀ l, heap w' !!! l ≡ₚ heap w !!! l)
    ∧ (∀ l, l ∉ dict_values strata → heap w' !!! l = heap w !!! l)
    ∧ np_random w' = np_random w.
Proof.
  destruct (stratified_loop self strata (empty_allocation (groups self)) w 0)
    as (d & w' & Hrun & _ & Hsp & Hperm & Hframe & Hnp).
  - apply (dict_keys_comprehension (λ _, [])).
  - apply empty_allocation_spread.
  - exists d, w'. by split_and!.
Qed.
End stratified_lemmas.

Section permuted_blocks_lemmas.
Context {P : Type}.
Implicit Types (xs : list P) (block_sizes : list Z).

Lemma make_permuted_blocks_snoc xs block_sizes (block_size : Z) :
  make_permuted_blocks xs (block_sizes ++ [block_size])
  = result_bind (make_permuted_blocks xs block_sizes) (λ blocks,
    result_bind (make_blocks xs block_size) (λ new_blocks, Ok (blocks ++ new_blocks))).
Proof. unfold make_permuted_blocks. by rewrite foldl_app. Qed.

(** One full partition of the list per size, in the order of the sizes. *)
Lemma make_permuted_blocks_pos xs block_sizes :
  Forall (λ b, 1 ≤ b)%Z block_sizes →
  make_permuted_blocks xs block_sizes
  = Ok (concat ((λ b, blocks_of (Z.to_nat b) xs) <$> block_sizes)).
Proof.
  induction block_sizes as [|b block_sizes IH] using rev_ind; [intros _; reflexivity|].
  intros Hall. apply Forall_app in Hall as [Hall Hb]. apply Forall_inv in Hb.
  rewrite make_permuted_blocks_snoc, IH by done. simpl.
  rewrite make_blocks_pos by exact Hb. simpl.
  rewrite fmap_app, concat_app. simpl. by rewrite app_nil_r.
Qed.

Lemma make_blocks_nonzero xs (block_size : Z) :
  block_size ≠ 0%Z → ∃ blocks, make_blocks xs block_size = Ok blocks.
Proof.
  intros Hb. destruct (decide (1 ≤ block_size)%Z).
  - rewrite make_blocks_pos by done. by eexists.
  - rewrite make_blocks_neg by lia. by eexists.
Qed.

Lemma make_permuted_blocks_nonzero xs block_sizes :
  0%Z ∉ block_sizes → ∃ blocks, make_permuted_blocks xs block_sizes = Ok blocks.
Proof.
  induction block_sizes as [|b block_sizes IH] using rev_ind; [by eexists|].
  rewrite not_elem_of_app, not_elem_of_cons. intros [Hnin [Hb _]].
  destruct (IH Hnin) as [blocks Hblocks].
  destruct (make_blocks_nonzero xs b) as [new_blocks Hnew]; [done|].
  rewrite make_permuted_blocks_snoc, Hblocks. simpl. rewrite Hnew. by eexists.
Qed.
End permuted_blocks_lemmas.

Section balance.
Context `{RS : RandomSource} {P G K : Type}.
Context `{EqDecision G, EqDecision K}.
Implicit Types (w : world (P := P)) (self : Randomizations (G := G)).

Lemma cluster_allocation_run self (clusters : dict K (list P)) w :
  cluster_allocation self clusters w
  = let sh := shuffle (dict_keys clusters) (py_random w) in
    (Ok (round_robin (groups self) sh.1), with_py_random sh.2 w).
Proof.
  unfold cluster_allocation, bind, shuffle_new, ret.
  by destruct (shuffle _ _) as [x s].
Qed.

(** C2 (as amended: the stratified strategy balances each stratum, not the
    whole allocation; the share of each group is stated for distinct group
    names).  Over at least two groups, the group sizes of the allocation,
    as [randomization_check] reports them, differ by at most one for the
    simple, block and permuted-block strategies and, counting clusters, for
    the cluster strategy; for the stratified strategy they differ by at most
    the number of strata.  For the simple strategy over [g] groups of
    distinct names and [N] participants, the group declared in position [i]
    receives [N div g] participants, and one more exactly when
    [i < N mod g]. *)
Theorem round_robin_balance
    self w (block_size : Z) (block_sizes : list Z)
    (strata : dict K loc) (clusters : dict K (list P)) :
  let N := length (heap w !!! participants self) in
  let g := length (groups self) in
  2 ≤ g →
  (∃ d w', simple_randomization self w = (Ok d, w')
         ∧ balanced (randomization_check d)
         ∧ (NoDup (groups self) → ∀ i name, groups self !! i = Some name →
              dict_get name (randomization_check d)
              = Some (N `div` g + (if decide (i < N `mod` g) then 1 else 0)))) ∧
  (block_size ≠ 0%Z →
     ∃ d w', block_randomization self block_size w = (Ok d, w')
           ∧ balanced (randomization_check d)) ∧
  (0%Z ∉ block_sizes →
     ∃ d w', permuted_block_randomization self block_sizes w = (Ok d, w')
           ∧ balanced (randomization_check d)) ∧
  (∃ ca w', cluster_allocation self clusters w = (Ok ca, w')
          ∧ balanced (randomization_check ca)) ∧
  (∃ d w', stratified_randomization self strata w = (Ok d, w')
         ∧ spread_at_most (length strata) (randomization_check d)).
Proof.
  intros N g _. split_and!.
  - rewrite simple_randomization_run. cbn zeta. do 2 eexists. split_and!; [done| |].
    + apply round_robin_balanced.
    + intros Hnd i name Hi. rewrite (round_robin_size _ _ i) by done.
      by rewrite shuffle_length.
  - intros Hb. rewrite block_randomization_run.
    destruct (make_blocks_nonzero (heap w !!! participants self) block_size Hb)
      as [blocks ->].
    do 2 eexists. split; [done|]. apply round_robin_balanced.
  - intros Hb. rewrite permuted_block_randomization_run.
    destruct (make_permuted_blocks_nonzero (heap w !!! participants self) block_sizes Hb)
      as [blocks ->].
    do 2 eexists. split; [done|]. apply round_robin_balanced.
  - rewrite cluster_allocation_run. cbn zeta. do 2 eexists. split; [done|].
    apply round_robin_balanced.
  - destruct (stratified_randomization_run self strata w) as (d & w' & Hrun & Hsp & _).
    by exists d, w'.
Qed.
End balance.

Section determinism.
Context `{RS : RandomSource} {P G V K : Type}.
Context `{Countable P, EqDecision G, EqDecision V, EqDecision K}.
Implicit Types (w : world (P := P)).

(** Determinism of separate runs.  Two runs start from processes whose
    stores hold the same lists, the generators being in any two states; in
    each an engine is constructed on the same participant list with the same
    groups and the same seed (not [None]), and the same calls are made with
    the same arguments.  Then the two runs have the same outcomes, call by
    call (the same allocations, or the same exceptions), and leave the same
    lists in the store and the generator of [random] in the same state; when
    [numpy] accepts the seed they end in the same state altogether. *)
Lemma seeded_runs_agree
    (participants : loc) (groups : list G) (seed : Z)
    (calls : list (call (P := P) (V := V) (K := K))) w1 w2 :
  heap w1 = heap w2 →
  let r1 := run participants groups (Some seed) calls w1 in
  let r2 := run participants groups (Some seed) calls w2 in
  r1.1 = r2.1 ∧ heap r1.2 = heap r2.2 ∧ py_random r1.2 = py_random r2.2
  ∧ ((0 ≤ seed < 2 ^ 32)%Z → r1.2 = r2.2).
Proof.
  intros Hheap. unfold run, init, bind, set_random_seed, ret. cbn [heap py_random np_random].
  case_decide as Hseed.
  - rewrite Hheap. done.
  - cbn [fst snd heap py_random]. by split_and!.
Qed.

(** Two engines of one process: the first call shuffles from the seeded
    state, the second from the state the first call left. *)
Lemma two_engines_run (l1 l2 : loc) (gs : list G) (seed : Z) w (ps : list P) :
  l1 ≠ l2 → heap w !!! l1 = ps → heap w !!! l2 = ps → (0 ≤ seed < 2 ^ 32)%Z →
  let sh1 := shuffle ps (rng_seed seed) in
  let sh2 := shuffle ps sh1.2 in
  (two_engines l1 l2 gs seed w).1
  = Ok (round_robin gs sh1.1, round_robin gs sh2.1).
Proof.
  intros Hne H1 H2 Hseed sh1 sh2.
  unfold two_engines, init. unfold bind at 1. unfold bind at 1.
  unfold set_random_seed at 1. rewrite decide_True by done. unfold ret at 1.
  unfold bind at 1. unfold bind at 1.
  unfold set_random_seed at 1. rewrite decide_True by done. unfold ret at 1.
  cbn [heap py_random np_random].
  unfold bind at 1. rewrite simple_randomization_run. cbn zeta.
  cbn [heap py_random np_random participants groups].
  unfold bind at 1. rewrite simple_randomization_run. cbn zeta.
  cbn [heap py_random np_random participants groups fst snd]. unfold ret.
  rewrite lookup_total_insert_ne by done. rewrite H1, H2. done.
Qed.
End determinism.

Section alias.
Context `{RS : RandomSource} {P G V : Type}.
Context `{Countable P, EqDecision G, EqDecision V}.
Implicit Types (w : world (P := P)) (self : Randomizations (G := G)).

Lemma covariate_adaptive_randomization_run self (covariates : gmap P V) w :
  covariate_adaptive_randomization self covariates w
  = (greedy (groups self) covariates (empty_allocation (groups self))
            (heap w !!! participants self), w).
Proof.
  unfold covariate_adaptive_randomization. rewrite dict_from_items_idemp. done.
Qed.

(** C4.  [covariate_adaptive_randomization] and [minimization] are the same
    function: on every engine, every covariate map (complete or not) and
    every state they return the same allocation, or raise the same
    exception, and leave the same state. *)
Theorem covariate_adaptive_is_minimization self (covariates : gmap P V) w :
  covariate_adaptive_randomization self covariates w = minimization self covariates w.
Proof. by rewrite covariate_adaptive_randomization_run, minimization_run. Qed.

End alias.

Section counting.
Context {A : Type} `{EqDecision A}.

Lemma occurrences_Permutation x (l1 l2 : list A) :
  l1 ≡ₚ l2 → occurrences x l1 = occurrences x l2.
Proof. unfold occurrences. by intros ->. Qed.

Lemma occurrences_app x (l1 l2 : list A) :
  occurrences x (l1 ++ l2) = occurrences x l1 + occurrences x l2.
Proof. unfold occurrences. by rewrite filter_app, length_app. Qed.

Lemma occurrences_replicate x (l : list A) k :
  occurrences x (concat (replicate k l)) = k * occurrences x l.
Proof.
  induction k as [|k IH]; [done|]. simpl. by rewrite occurrences_app, IH.
Qed.

Lemma occurrences_notin x (l : list A) : x ∉ l → occurrences x l = 0.
Proof.
  unfold occurrences. induction l as [|y l IH]; [done|].
  rewrite not_elem_of_cons. intros [Hne Hnin].
  rewrite filter_cons, decide_False by done. by apply IH.
Qed.

Lemma occurrences_NoDup x (l : list A) : NoDup l → x ∈ l → occurrences x l = 1.
Proof.
  induction 1 as [|y l Hnin Hnd IH]; [by intros ?%elem_of_nil|].
  intros [->|Hin]%elem_of_cons.
  - unfold occurrences. rewrite filter_cons, decide_True by done. simpl.
    f_equal. by apply occurrences_notin.
  - unfold occurrences. rewrite filter_cons, decide_False by (intros ->; done).
    by apply IH.
Qed.

Lemma length_concat_replicate (l : list A) k :
  length (concat (replicate k l)) = k * length l.
Proof. induction k as [|k IH]; [done|]. simpl. by rewrite length_app, IH. Qed.
End counting.

Section failure_modes.
Context `{RS : RandomSource} {P G : Type}.
Context `{EqDecision P, EqDecision G}.
Implicit Types (w : world (P := P)) (self : Randomizations (G := G)).

(** C6 (as amended: the method has no failure of its own; an empty group
    list gives the empty allocation).  [simple_randomization()] never
    raises.  With an empty group list it returns the empty mapping, in which
    no participant is assigned; with a non-empty list of distinct group
    names it returns a complete allocation: every declared group is a key,
    in declared order, and the groups together hold the participants of the
    stored list, each as many times as the list does. *)
Theorem simple_randomization_never_fails self w :
  ∃ d w',
    simple_randomization self w = (Ok d, w')
    ∧ (groups self = [] → d = [])
    ∧ (groups self ≠ [] → NoDup (groups self) →
         dict_keys d = groups self
         ∧ concat (dict_values d) ≡ₚ heap w !!! participants self).
Proof.
  rewrite simple_randomization_run. cbn zeta. do 2 eexists. split_and!; [done| |].
  - by intros ->.
  - intros Hne Hnd. split.
    + by apply round_robin_keys.
    + rewrite round_robin_Permutation by done. apply shuffle_Permutation.
Qed.

Lemma round_robin_nil_values {A} (groups : list G) g (ys : list A) :
  (g, ys) ∈ round_robin groups [] → ys = [].
Proof. by intros (i & _ & _ & ->)%round_robin_elem. Qed.

(** The members of the groups of a deal, by position: member [j] of the
    group declared in position [i] is element [i + j * g] of the dealt
    list. *)
Lemma round_robin_member {A} (groups : list G) (xs : list A) g ys :
  (g, ys) ∈ round_robin groups xs →
  ∃ i, groups !! i = Some g ∧ ∀ j, ys !! j = xs !! (i + j * length groups).
Proof.
  intros (i & Hi & Hg & ->)%round_robin_elem. exists i. split; [done|].
  intros j. apply slice_step_lookup. lia.
Qed.

(** C7 (as amended: no check of the block size is made; a zero size fails
    in [range], a negative size gives no block).  [block_randomization]
    raises [ValueError] for a block size of 0 and, for a negative block
    size, returns without an exception an allocation whose groups are all
    empty.  For a block size [b ≥ 1] it cuts the stored list into
    consecutive blocks of [b] participants, the last one holding between 1
    and [b]; shuffles each block in turn, so that each shuffled block holds
    the participants of its block; concatenates the shuffled blocks in the
    order of the blocks; and deals the result round-robin: member [j] of the
    group in position [i] is element [i + j * g] of the concatenation, over
    [g] groups.  The stored list is left as it is. *)
Theorem block_randomization_by_block_size self (block_size : Z) w :
  let ps := heap w !!! participants self in
  (block_size = 0%Z → block_randomization self block_size w = (Raise ValueError, w)) ∧
  ((block_size < 0)%Z →
     ∃ d, block_randomization self block_size w = (Ok d, w)
        ∧ ∀ g ys, (g, ys) ∈ d → ys = []) ∧
  ((1 ≤ block_size)%Z →
     let b := Z.to_nat block_size in
     let blocks := blocks_of b ps in
     let shuffled := (shuffle_each blocks (py_random w)).1 in
     concat blocks = ps
     ∧ (∀ k block, blocks !! k = Some block →
          block = take b (drop (k * b) ps)
          ∧ 1 ≤ length block ≤ b
          ∧ (S k < length blocks → length block = b))
     ∧ Forall2 (≡ₚ) shuffled blocks
     ∧ ∃ d w',
         block_randomization self block_size w = (Ok d, w')
         ∧ d = round_robin (groups self) (concat shuffled)
         ∧ heap w' = heap w
         ∧ ∀ g ys, (g, ys) ∈ d →
             ∃ i, groups self !! i = Some g
                ∧ ∀ j, ys !! j = concat shuffled !! (i + j * length (groups self))).
Proof.
  intros ps. split_and!.
  - intros ->. by rewrite block_randomization_run, make_blocks_zero.
  - intros Hb. rewrite block_randomization_run, make_blocks_neg by done.
    simpl. eexists. split.
    + unfold with_py_random. by destruct w.
    + apply round_robin_nil_values.
  - intros Hb b blocks shuffled.
    assert (1 ≤ b) as Hb' by (unfold b; lia).
    split_and!.
    + by apply concat_blocks_of.
    + intros k block Hk. split; [by apply blocks_of_lookup|].
      by apply blocks_of_length.
    + apply shuffle_each_Forall2.
    + rewrite block_randomization_run. fold ps. rewrite make_blocks_pos by done.
      do 2 eexists. split_and!; [done..|].
      intros g ys. apply round_robin_member.
Qed.
End failure_modes.

Section permuted_block.
Context `{RS : RandomSource} {P G : Type}.
Context `{EqDecision P, EqDecision G}.
Implicit Types (w : world (P := P)) (self : Randomizations (G := G)).

Lemma concat_partitions (xs : list P) (block_sizes : list Z) :
  Forall (λ b, 1 ≤ b)%Z block_sizes →
  concat (concat ((λ b, blocks_of (Z.to_nat b) xs) <$> block_sizes))
  = concat (replicate (length block_sizes) xs).
Proof.
  induction 1 as [|b block_sizes Hb _ IH]; [done|].
  csimpl. rewrite concat_app, IH. f_equal. apply concat_blocks_of. lia.
Qed.

(** C8 (as amended: block sizes of at least 1, at least one group, group
    names pairwise distinct; occurrences counted with those of the stored
    list).  For an engine with [N] participants and a list of [k] block
    sizes, [permuted_block_randomization] builds one full partition of the
    stored list per size: the allocation it returns holds the participants
    of [k] copies of the stored list, hence [k * N] participants in all,
    each of them [k] times as often as the stored list holds it, which is
    exactly [k] times when the identifiers of the stored list are distinct. *)
Theorem permuted_block_randomization_repeats_the_list self (block_sizes : list Z) w :
  let ps := heap w !!! participants self in
  let k := length block_sizes in
  block_sizes ≠ [] →
  Forall (λ b, 1 ≤ b)%Z block_sizes →
  groups self ≠ [] →
  NoDup (groups self) →
  ∃ d w',
    permuted_block_randomization self block_sizes w = (Ok d, w')
    ∧ concat (dict_values d) ≡ₚ concat (replicate k ps)
    ∧ length (concat (dict_values d)) = k * length ps
    ∧ (∀ p, occurrences p (concat (dict_values d)) = k * occurrences p ps)
    ∧ (NoDup ps → ∀ p, p ∈ ps → occurrences p (concat (dict_values d)) = k).
Proof.
  intros ps k _ Hpos Hne Hnd.
  rewrite permuted_block_randomization_run. fold ps.
  rewrite make_permuted_blocks_pos by done.
  do 2 eexists. split; [done|].
  match goal with |- ?X ≡ₚ _ ∧ _ => assert (X ≡ₚ concat (replicate k ps)) as Hperm end.
  { rewrite round_robin_Permutation by done.
    rewrite shuffle_each_concat_Permutation. by rewrite concat_partitions. }
  split_and!.
  - done.
  - by rewrite Hperm, length_concat_replicate.
  - intros p. by rewrite (occurrences_Permutation _ _ _ Hperm), occurrences_replicate.
  - intros Hps p Hp.
    rewrite (occurrences_Permutation _ _ _ Hperm), occurrences_replicate.
    rewrite occurrences_NoDup by done. lia.
Qed.
End permuted_block.

(* ===================================================================== *)
(** * Effects on the store *)
(* ===================================================================== *)

Section store_effects.
Context `{RS : RandomSource} {P G V K : Type}.
Context `{Countable P, EqDecision G, EqDecision V, EqDecision K}.
Implicit Types (w : world (P := P)) (self : Randomizations (G := G)).

Lemma simple_randomization_heap self w :
  heap (simple_randomization self w).2
  = <[participants self := (shuffle (heap w !!! participants self) (py_random w)).1]> (heap w).
Proof. by rewrite simple_randomization_run. Qed.

(** The blocks are slices, lists of their own: shuffling them leaves the
    store as it is. *)
Lemma block_randomization_heap self (block_size : Z) w :
  heap (block_randomization self block_size w).2 = heap w.
Proof. rewrite block_randomization_run. by destruct (make_blocks _ _). Qed.

Lemma permuted_block_randomization_heap self (block_sizes : list Z) w :
  heap (permuted_block_randomization self block_sizes w).2 = heap w.
Proof. rewrite permuted_block_randomization_run. by destruct (make_permuted_blocks _ _). Qed.

Lemma cluster_randomization_heap self (clusters : dict K (list P)) w :
  heap (cluster_randomization self clusters w).2 = heap w.
Proof.
  unfold cluster_randomization, bind. rewrite cluster_allocation_run. cbn zeta.
  unfold lift, ret. by destruct (expand_clusters _ _).
Qed.

Lemma minimization_world self (covariates : gmap P V) w :
  (minimization self covariates w).2 = w.
Proof. by rewrite minimization_run. Qed.

Lemma covariate_adaptive_randomization_world self (covariates : gmap P V) w :
  (covariate_adaptive_randomization self covariates w).2 = w.
Proof. by rewrite covariate_adaptive_randomization_run. Qed.

(** [stratified_randomization] shuffles the member lists it is given and
    touches no other list. *)
Lemma stratified_randomization_frame self (strata : dict K loc) w l :
  l ∉ dict_values strata →
  heap (stratified_randomization self strata w).2 !!! l = heap w !!! l.
Proof.
  destruct (stratified_randomization_run self strata w) as (d & w' & -> & _ & _ & Hframe & _).
  apply Hframe.
Qed.

(** Among the strategy methods, only [simple_randomization] shuffles the
    stored participant list. *)
Lemma shuffles_stored_list_simple (m : method) :
  shuffles_stored_list (P := P) (G := G) (V := V) (K := K) m → m = simple_randomization_m.
Proof.
  intros (self & c & w & <- & Hobj & Hneq).
  destruct c as [|block_size|strata|covariates|block_sizes|clusters|covariates];
    cbn [method_of invoke call_objects] in *; [done|exfalso; apply Hneq..].
  - by rewrite block_randomization_heap.
  - by apply stratified_randomization_frame.
  - by rewrite covariate_adaptive_randomization_world.
  - by rewrite permuted_block_randomization_heap.
  - by rewrite cluster_randomization_heap.
  - by rewrite minimization_world.
Qed.

(** After [simple_randomization] the next call on the engine works on the
    shuffled list. *)
Lemma invoke_after_simple_randomization self (c : call (P := P) (V := V) (K := K)) w :
  invoke_all self [SimpleRandomization; c] w
  = let r := simple_randomization self w in
    let r' := invoke self c r.2 in
    ([r.1; r'.1], r'.2).
Proof.
  cbn [invoke_all invoke]. destruct (simple_randomization self w) as [r1 w1].
  cbn zeta. cbn [fst snd]. by destruct (invoke self c w1) as [r2 w2].
Qed.
End store_effects.

(* ===================================================================== *)
(** * Further properties of the strategies *)
(* ===================================================================== *)

Section minimization_more.
Context `{RS : RandomSource} {P G V : Type} `{Countable P, EqDecision G, EqDecision V}.
Implicit Types (groups : list G) (covariates : gmap P V) (a : dict G (list P)).
Implicit Types (w : world (P := P)) (self : Randomizations (G := G)).




End minimization_more.

Section minimization_errors.
Context `{RS : RandomSource} {P G V : Type} `{Countable P, EqDecision G, EqDecision V}.
Implicit Types (groups : list G) (covariates : gmap P V) (a : dict G (list P)).
Implicit Types (w : world (P := P)) (self : Randomizations (G := G)).

Lemma greedy_Raise groups covariates (e : exn) (ps : list P) :
  foldl (λ acc participant,
           result_bind acc (λ group_allocations,
           minimization_step groups covariates group_allocations participant))
        (Raise e) ps = Raise e.
Proof. induction ps as [|p ps IH]; [done|]. simpl. apply IH. Qed.

Lemma greedy_cons groups covariates a (p : P) (ps : list P) :
  greedy groups covariates a (p :: ps)
  = match minimization_step groups covariates a p with
    | Ok a' => greedy groups covariates a' ps
    | Raise e => Raise e
    end.
Proof.
  unfold greedy. simpl. destruct (minimization_step _ _ _ _); [done|apply greedy_Raise].
Qed.

Lemma minimization_step_missing groups covariates a (p : P) :
  covariates !! p = None → minimization_step groups covariates a p = Raise KeyError.
Proof. intros Hp. unfold minimization_step. by rewrite Hp. Qed.

(** A participant without a covariate value stops the loop with
    [KeyError]. *)
Lemma greedy_KeyError groups covariates (ps : list P) :
  groups ≠ [] → (∃ p, p ∈ ps ∧ covariates !! p = None) →
  greedy groups covariates (empty_allocation groups) ps = Raise KeyError.
Proof.
  intros Hne. induction ps as [|p ps IH] using rev_ind.
  - by intros (p & ?%elem_of_nil & _).
  - intros Hmiss. rewrite greedy_snoc.
    destruct (decide (Forall (λ q, is_Some (covariates !! q)) ps)) as [Hall|Hnall].
    + destruct (greedy_Ok groups covariates ps Hne Hall) as (a & -> & _). simpl.
      apply minimization_step_missing.
      destruct Hmiss as (q & [Hq| ->%list_elem_of_singleton]%elem_of_app & Hnone); [|done].
      rewrite Forall_forall in Hall. destruct (Hall q Hq) as [? ?]. congruence.
    + rewrite IH; [done|].
      apply not_Forall_Exists in Hnall; [|apply _].
      apply Exists_exists in Hnall as (q & Hq & Hnone). exists q. split; [done|].
      by apply eq_None_not_Some.
Qed.

(** X4.  Missing covariate values.  On an engine with at least one group,
    [minimization] raises [KeyError] exactly when some participant of the
    stored list has no entry in the covariate map, and returns an allocation
    exactly when every participant has one; it raises nothing else, and in
    either case the store and the generators are left as they were. *)
Theorem minimization_raises_KeyError_on_missing_covariate
    self (covariates : gmap P V) w :
  let ps := heap w !!! participants self in
  groups self ≠ [] →
  ((minimization self covariates w).1 = Raise KeyError
     ↔ ∃ p, p ∈ ps ∧ covariates !! p = None)
  ∧ ((∃ d, (minimization self covariates w).1 = Ok d)
     ↔ ∀ p, p ∈ ps → is_Some (covariates !! p))
  ∧ (minimization self covariates w).1 ≠ Raise ValueError
  ∧ (minimization self covariates w).2 = w.
Proof.
  intros ps Hne. rewrite minimization_run. fold ps. cbn [fst snd].
  destruct (decide (Forall (λ q, is_Some (covariates !! q)) ps)) as [Hall|Hnall].
  - destruct (greedy_Ok (groups self) covariates ps Hne Hall) as (a & -> & _).
    rewrite Forall_forall in Hall. split_and!; [|split; [auto|by eexists]|done|done].
    split; [done|]. intros (p & Hp & Hnone). destruct (Hall p Hp). congruence.
  - assert (∃ p, p ∈ ps ∧ covariates !! p = None) as Hmiss.
    { apply not_Forall_Exists in Hnall; [|apply _].
      apply Exists_exists in Hnall as (q & Hq & Hnone). exists q. split; [done|].
      by apply eq_None_not_Some. }
    rewrite (greedy_KeyError _ _ _ Hne Hmiss). split_and!; [done| |done|done].
    split; [by intros [? ?]|]. intros Hall. destruct Hmiss as (p & Hp & Hnone).
    destruct (Hall p Hp). congruence.
Qed.

(** X5.  No group.  On an engine whose group list is empty,
    [minimization] returns the empty mapping when the stored list is empty;
    otherwise it raises on the first participant: [KeyError] when that
    participant has no covariate value, and [ValueError] (from [min] over no
    scores) when it has one. *)
Theorem minimization_without_groups self (covariates : gmap P V) w :
  groups self = [] →
  match heap w !!! participants self with
  | [] => (minimization self covariates w).1 = Ok []
  | p :: _ =>
      (minimization self covariates w).1
      = Raise (match covariates !! p with Some _ => ValueError | None => KeyError end)
  end.
Proof.
  intros Hg. rewrite minimization_run. rewrite Hg. cbn [fst].
  destruct (heap w !!! participants self) as [|p ps]; [done|].
  rewrite greedy_cons. unfold minimization_step.
  destruct (covariates !! p); done.
Qed.

End minimization_errors.

Section cluster_lemmas.
Context `{RS : RandomSource} {P G K : Type} `{EqDecision G, EqDecision K}.
Implicit Types (clusters : dict K (list P)) (pa : dict G (list P)) (ca : dict G (list K)).
Implicit Types (w : world (P := P)) (self : Randomizations (G := G)).

Lemma dict_set_set {V} (k : G) (v v' : V) (d : dict G V) :
  dict_set k v (dict_set k v' d) = dict_set k v d.
Proof.
  induction d as [|[k0 v0] d IH]; simpl.
  - by rewrite decide_True.
  - destruct (decide (k = k0)) as [->|Hne]; simpl.
    + by rewrite decide_True.
    + rewrite decide_False by done. by rewrite IH.
Qed.

(** The inner loop of the expansion, for the clusters [cs] of one group:
    every cluster being a key of [clusters], the member lists are appended
    to the list of the group, which is created when the first one comes. *)
Lemma expand_group clusters (g : G) (cs : list K) pa :
  (∀ c, c ∈ cs → c ∈ dict_keys clusters) →
  foldl (λ acc cluster,
           result_bind acc (λ participant_allocation,
           result_bind (dict_subscript cluster clusters) (λ members,
           Ok (defaultdict_update [] (λ xs, xs ++ members) g participant_allocation))))
        (Ok pa) cs
  = Ok (match cs with
        | [] => pa
        | _ :: _ =>
            dict_set g (default [] (dict_get g pa)
                        ++ concat (cluster_members clusters <$> cs)) pa
        end).
Proof.
  revert pa. induction cs as [|c cs IH]; intros pa Hin; [done|].
  cbn [foldl result_bind].
  destruct (proj2 (dict_get_is_Some c clusters) (Hin c ltac:(left))) as [ms Hms].
  assert (dict_subscript c clusters = Ok ms) as Hsub
    by (unfold dict_subscript; by rewrite Hms).
  rewrite Hsub. cbn [result_bind].
  assert (defaultdict_update [] (λ xs, xs ++ ms) g pa
          = dict_set g (default [] (dict_get g pa) ++ ms) pa) as ->.
  { unfold defaultdict_update. by destruct (dict_get g pa). }
  rewrite IH by (intros c' Hc'; apply Hin; by right).
  f_equal.
  change (cluster_members clusters <$> c :: cs)
    with (cluster_members clusters c :: (cluster_members clusters <$> cs)).
  assert (cluster_members clusters c = ms) as ->
    by (unfold cluster_members; by rewrite Hms).
  cbn [concat]. destruct cs as [|c' cs]; [by rewrite app_nil_r|].
  rewrite dict_get_set_eq. cbn [default id]. rewrite dict_set_set.
  unfold id. by rewrite <-app_assoc.
Qed.

Lemma omap_expanded_keys clusters ca g :
  g ∈ dict_keys (expanded clusters ca) → g ∈ dict_keys ca.
Proof.
  unfold expanded, dict_keys. induction ca as [|[g0 cs] ca IH]; [done|].
  csimpl. destruct cs as [|c cs]; csimpl.
  - intros Hg. right. by apply IH.
  - intros [->|Hg]%elem_of_cons; [left|right; by apply IH].
Qed.

Lemma expanded_keys_NoDup clusters ca :
  NoDup (dict_keys ca) → NoDup (dict_keys (expanded clusters ca)).
Proof.
  unfold dict_keys at 1. induction ca as [|[g0 cs] ca IH]; [intros _; apply NoDup_nil_2|].
  csimpl. rewrite NoDup_cons. intros [Hnin Hnd].
  unfold expanded. csimpl. destruct cs as [|c cs]; csimpl.
  - by apply IH.
  - unfold dict_keys. csimpl. apply NoDup_cons. split; [|by apply IH].
    intros Hin. apply Hnin. by apply (omap_expanded_keys clusters ca).
Qed.

(** The expansion of a cluster-level allocation whose clusters are keys of
    [clusters]: no exception. *)
Lemma expand_clusters_from clusters ca pa :
  NoDup (dict_keys ca) →
  (∀ g, g ∈ dict_keys ca → g ∉ dict_keys pa) →
  (∀ g cs c, (g, cs) ∈ ca → c ∈ cs → c ∈ dict_keys clusters) →
  foldl (λ acc item,
           foldl (λ acc cluster,
                    result_bind acc (λ participant_allocation,
                    result_bind (dict_subscript cluster clusters) (λ members,
                    Ok (defaultdict_update [] (λ xs, xs ++ members) item.1
                                           participant_allocation))))
                 acc item.2)
        (Ok pa) (dict_items ca)
  = Ok (pa ++ expanded clusters ca).
Proof.
  unfold dict_items. revert pa. induction ca as [|[g cs] ca IH]; intros pa Hnd Hfresh Hin.
  - by rewrite app_nil_r.
  - unfold dict_keys in Hnd. csimpl in Hnd. apply NoDup_cons in Hnd as [Hg Hnd].
    cbn [foldl fst snd]. rewrite expand_group by (intros c Hc; eapply Hin; [left|done]).
    assert (g ∉ dict_keys pa) as Hgpa by (apply Hfresh; left).
    unfold expanded. csimpl. destruct cs as [|c cs]; csimpl.
    + apply IH; [done| |].
      * intros g' Hg'. apply Hfresh. by right.
      * intros g' cs' c' Hi Hc'. eapply Hin; [right; exact Hi|done].
    + rewrite (proj2 (dict_get_None g pa) Hgpa). simpl.
      rewrite dict_set_notin by done.
      rewrite IH; [by rewrite <-app_assoc|done| |].
      * intros g' Hg'. unfold dict_keys. rewrite fmap_app, not_elem_of_app. split.
        -- apply Hfresh. by right.
        -- csimpl. intros ->%list_elem_of_singleton. done.
      * intros g' cs' c' Hi Hc'. eapply Hin; [right; exact Hi|done].
Qed.

(** What [cluster_randomization] computes: the cluster names are shuffled
    and dealt, and the deal is expanded; the store is left as it is. *)
Lemma cluster_randomization_run self clusters w :
  let sh := shuffle (dict_keys clusters) (py_random w) in
  cluster_allocation self clusters w
  = (Ok (round_robin (groups self) sh.1), with_py_random sh.2 w)
  ∧ cluster_randomization self clusters w
    = (Ok (expanded clusters (round_robin (groups self) sh.1)), with_py_random sh.2 w).
Proof.
  intros sh. split; [apply cluster_allocation_run|].
  unfold cluster_randomization. unfold bind at 1. rewrite cluster_allocation_run.
  cbn zeta. fold sh. unfold bind, lift, ret, expand_clusters.
  rewrite (expand_clusters_from clusters (round_robin (groups self) sh.1) []).
  - simpl. f_equal. f_equal. unfold dict_items.
    apply dict_from_items_NoDup, expanded_keys_NoDup, round_robin_keys_NoDup.
  - apply round_robin_keys_NoDup.
  - intros g _. apply not_elem_of_nil.
  - intros g cs c Hi Hc.
    apply round_robin_elem in Hi as (i & Hlt & _ & ->).
    assert (c ∈ sh.1) as Hsh.
    { apply list_elem_of_lookup in Hc as [j Hj].
      rewrite slice_step_lookup in Hj by lia.
      apply list_elem_of_lookup. eauto. }
    unfold sh in Hsh. by rewrite shuffle_Permutation in Hsh.
Qed.
End cluster_lemmas.
Section allocation_lemmas.
Context {K A : Type} `{EqDecision K}.
Implicit Types (d : dict K (list A)).

Lemma concat_submseteq (l1 l2 : list (list A)) : l1 ⊆+ l2 → concat l1 ⊆+ concat l2.
Proof.
  induction 1 as [|x l1 l2 _ IH|x y l|x l1 l2 _ IH|l1 l2 l3 _ IH1 _ IH2]; simpl.
  - done.
  - by apply submseteq_skips_l.
  - rewrite !app_assoc. apply submseteq_app; [|done].
    apply Permutation_submseteq, Permutation_app_comm.
  - by apply submseteq_inserts_l.
  - by etrans.
Qed.

Lemma concat_fmap_app {B} (f g : B → list A) (l : list B) :
  concat ((λ x, f x ++ g x) <$> l) ≡ₚ concat (f <$> l) ++ concat (g <$> l).
Proof.
  induction l as [|x l IH]; [done|]. csimpl. rewrite IH.
  rewrite <-!app_assoc. f_equiv. rewrite !app_assoc. f_equiv. apply Permutation_app_comm.
Qed.

Lemma concat_fmap_Permutation {B} (f g : B → list A) (l : list B) :
  (∀ x, f x ≡ₚ g x) → concat (f <$> l) ≡ₚ concat (g <$> l).
Proof. intros Hfg. induction l as [|x l IH]; [done|]. csimpl. by rewrite Hfg, IH. Qed.

Lemma length_concat_sum (l : list (list A)) :
  length (concat l) = sum_list (length <$> l).
Proof. induction l as [|x l IH]; [done|]. csimpl. rewrite length_app, IH. done. Qed.

(** A dictionary lists the values of its keys. *)
Lemma dict_values_get d :
  NoDup (dict_keys d) →
  dict_values d = (λ k, default [] (dict_get k d)) <$> dict_keys d.
Proof.
  unfold dict_keys, dict_values. induction d as [|[k v] d IH]; [done|].
  csimpl. rewrite NoDup_cons. intros [Hnin Hnd]. rewrite decide_True by done. simpl.
  f_equal. rewrite IH by done. apply list_fmap_ext. intros i k' Hk'.
  rewrite decide_False; [done|]. intros ->. apply Hnin.
  by apply list_elem_of_lookup_2 in Hk'.
Qed.

(** Storing a list under a key adds at most that list to the values. *)
Lemma dict_set_values_submseteq (k : K) (v : list A) d :
  concat (dict_values (dict_set k v d)) ⊆+ concat (dict_values d) ++ v.
Proof.
  unfold dict_values. induction d as [|[k0 v0] d IH]; csimpl.
  - by rewrite app_nil_r.
  - case_decide; csimpl.
    + rewrite <-app_assoc, (Permutation_app_comm (concat d.*2) v).
      by apply submseteq_inserts_l.
    + rewrite <-app_assoc. by apply submseteq_skips_l.
Qed.

Lemma dict_from_items_values_submseteq (items : list (K * list A)) :
  concat (dict_values (dict_from_items items)) ⊆+ concat items.*2.
Proof.
  induction items as [|[k v] items IH] using rev_ind; [done|].
  rewrite dict_from_items_snoc, fmap_app, concat_app. csimpl. rewrite app_nil_r.
  etrans; [apply dict_set_values_submseteq|]. by apply submseteq_app.
Qed.

(** Whatever the group names, a deal hands out no element more often than
    the dealt list holds it. *)
Lemma round_robin_submseteq (groups : list K) (xs : list A) :
  concat (dict_values (round_robin groups xs)) ⊆+ xs.
Proof.
  unfold round_robin. etrans; [apply dict_from_items_values_submseteq|].
  rewrite (imap_snd_deal groups (λ i, slice_step xs i (length groups))).
  destruct groups as [|g groups]; [apply submseteq_nil_l|].
  rewrite slice_step_concat_Permutation by (simpl; lia). done.
Qed.

Lemma dict_update_keys {V} (f : V → V) (k : K) (d d' : dict K V) :
  dict_update f k d = Ok d' → dict_keys d' = dict_keys d.
Proof.
  unfold dict_update. destruct (dict_get k d) as [v|] eqn:Hget; [|done].
  intros [= <-]. apply dict_keys_set_in, dict_get_is_Some. by eexists.
Qed.

(** The sizes [randomization_check] reports for a dictionary. *)
Lemma randomization_check_fmap d :
  NoDup (dict_keys d) →
  randomization_check d = (λ item, (item.1, length item.2)) <$> d.
Proof.
  intros Hnd. unfold randomization_check, dict_items. apply dict_from_items_NoDup.
  rewrite <-list_fmap_compose. exact Hnd.
Qed.

Lemma randomization_check_total d :
  NoDup (dict_keys d) →
  dict_keys (randomization_check d) = dict_keys d
  ∧ sum_list (dict_values (randomization_check d)) = length (concat (dict_values d)).
Proof.
  intros Hnd. rewrite randomization_check_fmap by done.
  unfold dict_keys, dict_values. rewrite <-!list_fmap_compose. split; [done|].
  rewrite length_concat_sum, <-list_fmap_compose. done.
Qed.
End allocation_lemmas.
Section cluster_properties.
Context `{RS : RandomSource} {P G K : Type} `{EqDecision G, EqDecision K}.
Implicit Types (clusters : dict K (list P)) (ca : dict G (list K)).
Implicit Types (w : world (P := P)) (self : Randomizations (G := G)).

Lemma dict_get_expanded clusters ca (g : G) :
  NoDup (dict_keys ca) →
  dict_get g (expanded clusters ca)
  = match dict_get g ca with
    | Some (c :: cs) => Some (concat (cluster_members clusters <$> c :: cs))
    | _ => None
    end.
Proof.
  unfold dict_keys at 1. induction ca as [|[g0 cs] ca IH]; [done|].
  csimpl. rewrite NoDup_cons. intros [Hnin Hnd].
  unfold expanded. csimpl. destruct cs as [|c cs]; csimpl.
  - case_decide as Hg; [|by apply IH]. subst g0.
    apply dict_get_None. intros Hin. apply Hnin.
    by apply (omap_expanded_keys clusters ca).
  - case_decide as Hg; [done|by apply IH].
Qed.

Lemma expanded_values clusters ca :
  concat (dict_values (expanded clusters ca))
  = concat (cluster_members clusters <$> concat (dict_values ca)).
Proof.
  unfold expanded, dict_values. induction ca as [|[g0 cs] ca IH]; [done|].
  csimpl. rewrite fmap_app, concat_app, <-IH. destruct cs as [|c cs]; done.
Qed.

Lemma expanded_keys_sublist clusters ca :
  dict_keys (expanded clusters ca) `sublist_of` dict_keys ca.
Proof.
  unfold expanded, dict_keys. induction ca as [|[g0 cs] ca IH]; [done|].
  csimpl. destruct cs as [|c cs]; csimpl; by constructor.
Qed.

(** The groups that hold a cluster come first when the cluster-level
    allocation is filled from the front. *)
Lemma expanded_keys_take clusters ca (n : nat) :
  (∀ i item, dict_items ca !! i = Some item → item.2 = [] ↔ n ≤ i) →
  dict_keys (expanded clusters ca) = take n (dict_keys ca).
Proof.
  unfold expanded, dict_keys, dict_items. revert n.
  induction ca as [|[g0 cs] ca IH]; intros n Hn; [by destruct n|].
  pose proof (Hn 0 (g0, cs) eq_refl) as H0. cbn [snd] in H0.
  destruct n as [|n].
  - rewrite take_0. destruct cs as [|c cs]; [|by pose proof (proj2 H0 (le_n 0))].
    csimpl. rewrite (IH 0); [done|].
    intros i item Hi. pose proof (Hn (S i) item Hi) as Hs.
    split; [lia|]. intros _. apply Hs. lia.
  - destruct cs as [|c cs]; [pose proof (proj1 H0 eq_refl); lia|].
    csimpl. f_equal. apply IH. intros i item Hi.
    pose proof (Hn (S i) item Hi) as Hs. rewrite Hs. lia.
Qed.

Lemma cluster_members_values clusters :
  NoDup (dict_keys clusters) →
  cluster_members clusters <$> dict_keys clusters = dict_values clusters.
Proof. intros Hnd. by rewrite (dict_values_get clusters). Qed.

(** X1.  Clusters stay whole.  [cluster_randomization] raises nothing and
    leaves every list of the store as it was.  The allocation it returns is
    the expansion of the cluster-level deal of the shuffled cluster names: a
    group that was dealt the clusters [c :: cs] holds the member lists of
    these clusters one after the other, in that order, and a group that was
    dealt no cluster (or is not declared) is not a key of the result. *)
Theorem cluster_randomization_keeps_clusters_whole self clusters w :
  ∃ ca d w',
    cluster_allocation self clusters w = (Ok ca, w')
    ∧ cluster_randomization self clusters w = (Ok d, w')
    ∧ heap w' = heap w
    ∧ NoDup (dict_keys d)
    ∧ ∀ g, dict_get g d
           = match dict_get g ca with
             | Some (c :: cs) => Some (concat (cluster_members clusters <$> c :: cs))
             | _ => None
             end.
Proof.
  destruct (cluster_randomization_run self clusters w) as [Hca Hrun].
  do 3 eexists. split_and!; [exact Hca|exact Hrun|done| |].
  - apply expanded_keys_NoDup, round_robin_keys_NoDup.
  - intros g. apply dict_get_expanded, round_robin_keys_NoDup.
Qed.

(** X2.  Coverage by clusters.  With at least one group, group names
    pairwise distinct and each cluster name a key once,
    [cluster_randomization] assigns every cluster to one group: the lists of
    the returned allocation together hold the members of all the clusters,
    each as often as the clusters do.  The keys of the allocation are the
    first [n] declared groups, in declared order, where [n] is the number of
    clusters (all the groups when there are at least as many clusters as
    groups). *)
Theorem cluster_randomization_coverage self clusters w :
  groups self ≠ [] → NoDup (groups self) → NoDup (dict_keys clusters) →
  ∃ d w',
    cluster_randomization self clusters w = (Ok d, w')
    ∧ concat (dict_values d) ≡ₚ concat (dict_values clusters)
    ∧ dict_keys d = take (length clusters) (groups self).
Proof.
  intros Hne Hnd Hcl.
  destruct (cluster_randomization_run self clusters w) as [_ Hrun].
  set (sh := shuffle (dict_keys clusters) (py_random w)) in *.
  do 2 eexists. split_and!; [exact Hrun| |].
  - rewrite expanded_values, round_robin_Permutation by done.
    unfold sh. rewrite shuffle_Permutation. by rewrite cluster_members_values.
  - rewrite (expanded_keys_take _ _ (length clusters)).
    + by rewrite round_robin_keys.
    + intros i [g cs]. unfold dict_items. rewrite round_robin_NoDup by done.
      rewrite list_lookup_imap. destruct (groups self !! i) as [g'|] eqn:Hg; [|done].
      intros [= <- <-]. cbn [snd]. apply lookup_lt_Some in Hg.
      rewrite <-length_zero_iff_nil, length_slice_step by lia.
      unfold sh. rewrite shuffle_length. unfold dict_keys. rewrite length_fmap.
      unfold slice_step_length. case_decide; lia.
Qed.
End cluster_properties.
Section greedy_returns.
Context {P G V : Type} `{Countable P, EqDecision G, EqDecision V}.
Implicit Types (groups : list G) (covariates : gmap P V) (a : dict G (list P)).

Lemma minimization_step_keys groups covariates a (p : P) a' :
  minimization_step groups covariates a p = Ok a' → dict_keys a' = dict_keys a.
Proof.
  unfold minimization_step. destruct (covariates !! p) as [v|]; [|done].
  destruct (result_mapM _ groups) as [items|]; [|done]. simpl.
  destruct (min_by _ _) as [m|]; [|done]. simpl. apply dict_update_keys.
Qed.

Lemma greedy_keys groups covariates a (ps : list P) a' :
  greedy groups covariates a ps = Ok a' → dict_keys a' = dict_keys a.
Proof.
  revert a'. induction ps as [|p ps IH] using rev_ind; intros a'.
  - by intros [= <-].
  - rewrite greedy_snoc. destruct (greedy groups covariates a ps) as [a1|]; [|done].
    simpl. intros Hs%minimization_step_keys. rewrite Hs. by apply IH.
Qed.

(** When the loop of [minimization] ends without an exception, whatever
    the group names: every participant had a covariate value, there was a
    group to assign to, and every participant is assigned once. *)
Lemma greedy_returns groups covariates (ps : list P) a :
  greedy groups covariates (empty_allocation groups) ps = Ok a →
  concat (dict_values a) ≡ₚ ps
  ∧ dict_keys a = first_occurrences groups
  ∧ Forall (λ q, is_Some (covariates !! q)) ps
  ∧ (ps ≠ [] → groups ≠ []).
Proof.
  intros Ha.
  assert (dict_keys a = first_occurrences groups) as Hkeys.
  { rewrite (greedy_keys _ _ _ _ _ Ha). apply (dict_keys_comprehension (λ _, [])). }
  destruct (decide (groups = [])) as [->|Hne].
  - destruct ps as [|p ps].
    + injection Ha as <-. by split_and!.
    + rewrite greedy_cons in Ha. unfold minimization_step in Ha.
      by destruct (covariates !! p).
  - destruct (decide (Forall (λ q, is_Some (covariates !! q)) ps)) as [Hall|Hnall].
    + destruct (greedy_Ok groups covariates ps Hne Hall) as (a0 & Ha0 & _ & Hperm).
      rewrite Ha0 in Ha. injection Ha as <-. by split_and!.
    + rewrite greedy_KeyError in Ha; [done..|].
      apply not_Forall_Exists in Hnall; [|apply _].
      apply Exists_exists in Hnall as (q & Hq & Hnone). exists q. split; [done|].
      by apply eq_None_not_Some.
Qed.
End greedy_returns.

Section stratified_coverage.
Context `{RS : RandomSource} {P G K : Type} `{EqDecision G}.
Implicit Types (w : world (P := P)) (self : Randomizations (G := G)).
Implicit Types (sg allocation : dict G (list P)).

Lemma first_occurrences_NoDup_id (groups : list G) :
  NoDup groups → first_occurrences groups = groups.
Proof.
  intros Hnd. rewrite <-(round_robin_dict_keys groups (@nil nat)).
  by apply round_robin_keys.
Qed.

(** An allocation with the keys of the accumulator: the accumulator keeps
    its keys and gains the lists of the allocation. *)
Lemma extend_groups_values sg allocation :
  NoDup (dict_keys sg) → dict_keys allocation = dict_keys sg →
  ∃ sg', extend_groups sg allocation = Ok sg'
       ∧ dict_keys sg' = dict_keys sg
       ∧ concat (dict_values sg')
         ≡ₚ concat (dict_values sg) ++ concat (dict_values allocation).
Proof.
  intros Hnd Hkeys.
  destruct (extend_groups_Ok sg allocation) as (sg1 & Hsg1 & Hk1 & Hget).
  { by rewrite Hkeys. }
  { intros g. by rewrite Hkeys. }
  exists sg1. split_and!; [done..|].
  rewrite (dict_values_get sg1) by (by rewrite Hk1).
  rewrite (dict_values_get sg), (dict_values_get allocation) by (done || by rewrite Hkeys).
  rewrite Hk1, Hkeys, <-concat_fmap_app.
  assert ((λ k, default [] (dict_get k sg1)) <$> dict_keys sg
          = (λ k, default [] (dict_get k sg) ++ default [] (dict_get k allocation))
              <$> dict_keys sg) as ->; [|done].
  apply list_fmap_ext. intros i g Hg. rewrite Hget.
  apply list_elem_of_lookup_2, dict_get_is_Some in Hg as [xs Hxs]. by rewrite Hxs.
Qed.

(** The loop over the strata, for any group names: the accumulator gains
    no participant the strata do not hold, and with distinct names and at
    least one group it gains all of them. *)
Lemma stratified_loop_coverage self (strata : dict K loc) sg w :
  dict_keys sg = first_occurrences (groups self) →
  ∃ d w',
    foldM (λ stratified_groups (item : K * loc),
             bind (shuffle_at item.2) (λ _,
             bind (load item.2) (λ ms,
             lift (extend_groups stratified_groups (round_robin (groups self) ms)))))
          sg (dict_items strata) w = (Ok d, w')
    ∧ dict_keys d = first_occurrences (groups self)
    ∧ concat (dict_values d)
      ⊆+ concat (dict_values sg) ++ concat ((λ l, heap w !!! l) <$> dict_values strata)
    ∧ (groups self ≠ [] → NoDup (groups self) →
       concat (dict_values d)
       ≡ₚ concat (dict_values sg) ++ concat ((λ l, heap w !!! l) <$> dict_values strata)).
Proof.
  unfold dict_items, dict_values.
  revert sg w. induction strata as [|[name l] strata IH]; intros sg w Hkeys.
  - exists sg, w. csimpl. rewrite app_nil_r. split_and!; [done|done|reflexivity|reflexivity].
  - cbn [foldM]. unfold bind at 1. unfold bind at 1. unfold shuffle_at at 1.
    cbn [snd]. pose proof (shuffle_Permutation (heap w !!! l) (py_random w)) as Hp.
    destruct (shuffle (heap w !!! l) (py_random w)) as [x s] eqn:Hsh. cbn [fst] in Hp.
    unfold bind at 1. unfold load at 1. cbn [heap].
    rewrite lookup_total_insert_eq. unfold lift at 1.
    destruct (extend_groups_values sg (round_robin (groups self) x))
      as (sg1 & -> & Hk1 & Hvals).
    { rewrite Hkeys. apply first_occurrences_NoDup. }
    { by rewrite Hkeys, round_robin_dict_keys. }
    set (w1 := {| heap := <[l:=x]> (heap w); py_random := s; np_random := np_random w |}).
    destruct (IH sg1 w1) as (d & w' & Hrun & Hkd & Hsub & Hperm); [by rewrite Hk1|].
    assert (concat ((λ l', heap w1 !!! l') <$> strata.*2)
            ≡ₚ concat ((λ l', heap w !!! l') <$> strata.*2)) as Hrest.
    { apply concat_fmap_Permutation. intros l'. subst w1. cbn [heap].
      destruct (decide (l' = l)) as [->|Hne].
      - by rewrite lookup_total_insert_eq.
      - by rewrite lookup_total_insert_ne. }
    pose proof (round_robin_submseteq (groups self) x) as Hrr.
    pose proof (round_robin_Permutation (groups self) x) as Hrp.
    unfold dict_values in Hvals, Hrr, Hrp.
    exists d, w'. split_and!; [done|done| |].
    + etrans; [exact Hsub|]. rewrite Hvals, Hrest. csimpl. rewrite <-app_assoc.
      apply submseteq_skips_l, submseteq_app; [|done].
      etrans; [exact Hrr|]. by rewrite Hp.
    + intros Hne Hnd. rewrite (Hperm Hne Hnd), Hvals, Hrest. csimpl.
      rewrite <-app_assoc. by rewrite Hrp, Hp by done.
Qed.

Lemma stratified_randomization_values self (strata : dict K loc) w :
  ∃ d w',
    stratified_randomization self strata w = (Ok d, w')
    ∧ dict_keys d = first_occurrences (groups self)
    ∧ concat (dict_values d) ⊆+ concat ((λ l, heap w !!! l) <$> dict_values strata)
    ∧ (groups self ≠ [] → NoDup (groups self) →
       concat (dict_values d) ≡ₚ concat ((λ l, heap w !!! l) <$> dict_values strata)).
Proof.
  destruct (stratified_loop_coverage self strata (empty_allocation (groups self)) w)
    as (d & w' & Hrun & Hkeys & Hsub & Hperm).
  { apply (dict_keys_comprehension (λ _, [])). }
  rewrite empty_allocation_values in Hsub, Hperm.
  exists d, w'. by split_and!.
Qed.

(** X6.  Coverage of the strata.  With at least one group and group names
    pairwise distinct, [stratified_randomization] returns an allocation
    whose keys are the declared groups in declared order and whose lists
    together hold the members of all the strata, each as often as the
    member lists (as they are before the call) do: no member of a stratum
    is lost and none is assigned twice, also when a member list is given
    under two stratum names. *)
Theorem stratified_randomization_coverage self (strata : dict K loc) w :
  groups self ≠ [] → NoDup (groups self) →
  ∃ d w',
    stratified_randomization self strata w = (Ok d, w')
    ∧ dict_keys d = groups self
    ∧ concat (dict_values d) ≡ₚ concat ((λ l, heap w !!! l) <$> dict_values strata).
Proof.
  intros Hne Hnd.
  destruct (stratified_randomization_values self strata w)
    as (d & w' & Hrun & Hkeys & _ & Hperm).
  exists d, w'. split_and!; [done| |by apply Hperm].
  by rewrite Hkeys, first_occurrences_NoDup_id.
Qed.
End stratified_coverage.
Section blocks_more.
Context {P : Type}.
Implicit Types (xs : list P).

Lemma make_blocks_concat xs (block_size : Z) blocks :
  make_blocks xs block_size = Ok blocks → concat blocks ⊆+ xs.
Proof.
  intros Hb. destruct (decide (1 ≤ block_size)%Z) as [Hpos|Hneg].
  - rewrite make_blocks_pos in Hb by done. injection Hb as <-.
    by rewrite concat_blocks_of by lia.
  - destruct (decide (block_size = 0%Z)) as [->|Hnz]; [by rewrite make_blocks_zero in Hb|].
    rewrite make_blocks_neg in Hb by lia. injection Hb as <-. apply submseteq_nil_l.
Qed.

Lemma make_permuted_blocks_concat xs (block_sizes : list Z) blocks :
  make_permuted_blocks xs block_sizes = Ok blocks →
  concat blocks ⊆+ concat (replicate (length block_sizes) xs).
Proof.
  revert blocks. induction block_sizes as [|b bs IH] using rev_ind; intros blocks.
  - by intros [= <-].
  - rewrite make_permuted_blocks_snoc.
    destruct (make_permuted_blocks xs bs) as [blocks0|]; [|done]. simpl.
    destruct (make_blocks xs b) as [new_blocks|] eqn:Hnew; [|done]. simpl. intros [= <-].
    rewrite length_app, replicate_add, !concat_app. simpl. rewrite app_nil_r.
    apply submseteq_app; [by apply IH|by eapply make_blocks_concat].
Qed.

Lemma make_permuted_blocks_singleton xs (block_size : Z) :
  make_permuted_blocks xs [block_size] = make_blocks xs block_size.
Proof. unfold make_permuted_blocks. simpl. by destruct (make_blocks _ _). Qed.

(** A block size that is at least the length of the list: one block, the
    list (no block when the list is empty). *)
Lemma blocks_of_whole (b : nat) xs :
  1 ≤ b → length xs ≤ b → blocks_of b xs = match xs with [] => [] | _ => [xs] end.
Proof.
  intros Hb Hlen. unfold blocks_of. destruct xs as [|x xs].
  - simpl. replace (b - 1) with (0 * b + (b - 1)) by lia.
    rewrite Nat.div_add_l, Nat.div_small by lia. done.
  - assert ((length (x :: xs) + b - 1) `div` b = 1) as ->.
    { symmetry. apply (Nat.div_unique _ _ _ (length (x :: xs) - 1)); simpl in *; lia. }
    simpl. by rewrite take_ge by (simpl in *; lia).
Qed.
End blocks_more.

Section returned_allocations.
Context `{RS : RandomSource} {P G V K : Type}.
Context `{Countable P, EqDecision G, EqDecision V, EqDecision K}.
Implicit Types (w : world (P := P)) (self : Randomizations (G := G)).
Implicit Types (c : call (P := P) (V := V) (K := K)) (d : dict G (list P)).

(** What every strategy returns, whatever the group names. *)
Lemma invoke_returns self c w d :
  (invoke self c w).1 = Ok d →
  NoDup (dict_keys d)
  ∧ dict_keys d `sublist_of` first_occurrences (groups self)
  ∧ (method_of c ≠ cluster_randomization_m → dict_keys d = first_occurrences (groups self))
  ∧ (well_formed_call c → concat (dict_values d) ⊆+ pool self c w).
Proof.
  destruct c as [|block_size|strata|covariates|block_sizes|clusters|covariates];
    cbn [invoke method_of pool well_formed_call].
  - rewrite simple_randomization_run. cbn. intros [= <-].
    rewrite round_robin_dict_keys. split_and!; [apply first_occurrences_NoDup|done..|].
    intros _. etrans; [apply round_robin_submseteq|]. by rewrite shuffle_Permutation.
  - rewrite block_randomization_run.
    destruct (make_blocks _ _) as [blocks|] eqn:Hb; cbn; [|done]. intros [= <-].
    rewrite round_robin_dict_keys. split_and!; [apply first_occurrences_NoDup|done..|].
    intros _. etrans; [apply round_robin_submseteq|].
    rewrite shuffle_each_concat_Permutation. by eapply make_blocks_concat.
  - destruct (stratified_randomization_values self strata w)
      as (d' & w' & Hrun & Hkeys & Hsub & _).
    rewrite Hrun. cbn. intros [= <-]. rewrite Hkeys.
    split_and!; [apply first_occurrences_NoDup|done..].
  - rewrite covariate_adaptive_randomization_run. cbn [fst].
    intros (Hperm & Hkeys & _)%greedy_returns. rewrite Hkeys.
    split_and!; [apply first_occurrences_NoDup|done..|].
    intros _. by rewrite Hperm.
  - rewrite permuted_block_randomization_run.
    destruct (make_permuted_blocks _ _) as [blocks|] eqn:Hb; cbn; [|done]. intros [= <-].
    rewrite round_robin_dict_keys. split_and!; [apply first_occurrences_NoDup|done..|].
    intros _. etrans; [apply round_robin_submseteq|].
    rewrite shuffle_each_concat_Permutation. by eapply make_permuted_blocks_concat.
  - destruct (cluster_randomization_run self clusters w) as [_ Hrun].
    rewrite Hrun. cbn. intros [= <-]. split_and!.
    + apply expanded_keys_NoDup, round_robin_keys_NoDup.
    + etrans; [apply expanded_keys_sublist|]. by rewrite round_robin_dict_keys.
    + done.
    + intros Hcl. rewrite expanded_values, <-(cluster_members_values clusters Hcl).
      apply concat_submseteq, fmap_submseteq.
      etrans; [apply round_robin_submseteq|]. by rewrite shuffle_Permutation.
  - rewrite minimization_run. cbn [fst].
    intros (Hperm & Hkeys & _)%greedy_returns. rewrite Hkeys.
    split_and!; [apply first_occurrences_NoDup|done..|].
    intros _. by rewrite Hperm.
Qed.

(** The effect of one call on the store and on the generators. *)
Lemma invoke_store self c w :
  (∀ l, heap (invoke self c w).2 !!! l ≡ₚ heap w !!! l)
  ∧ np_random (invoke self c w).2 = np_random w
  ∧ (∀ l, (l = participants self → c ≠ SimpleRandomization) → l ∉ call_objects c →
          heap (invoke self c w).2 !!! l = heap w !!! l).
Proof.
  destruct c as [|block_size|strata|covariates|block_sizes|clusters|covariates];
    cbn [invoke call_objects].
  - rewrite simple_randomization_run. cbn. split_and!; [|done|].
    + intros l. destruct (decide (l = participants self)) as [->|Hne].
      * rewrite lookup_total_insert_eq. apply shuffle_Permutation.
      * by rewrite lookup_total_insert_ne.
    + intros l Hl _. rewrite lookup_total_insert_ne; [done|].
      intros <-. by apply Hl.
  - rewrite block_randomization_run. by destruct (make_blocks _ _).
  - destruct (stratified_randomization_run self strata w)
      as (d & w' & -> & _ & Hperm & Hframe & Hnp).
    cbn [snd]. split_and!; [done..|]. intros l _. apply Hframe.
  - by rewrite covariate_adaptive_randomization_run.
  - rewrite permuted_block_randomization_run. by destruct (make_permuted_blocks _ _).
  - destruct (cluster_randomization_run self clusters w) as [_ ->]. done.
  - by rewrite minimization_run.
Qed.

(** X7.  No strategy assigns what it was not given.  Whatever the group
    names (repeated or none at all) and whatever the arguments, when a
    strategy returns an allocation its lists together hold no participant
    more often than the call was given it: the stored list for the simple,
    block and minimization strategies, the member lists of the strata or
    of the clusters, and one copy of the stored list per block size for the
    permuted-block strategy.  When the participants given are distinct, no
    participant is assigned twice. *)
Theorem allocations_hold_only_given_participants self c w d :
  well_formed_call c →
  (invoke self c w).1 = Ok d →
  concat (dict_values d) ⊆+ pool self c w
  ∧ length (concat (dict_values d)) ≤ length (pool self c w)
  ∧ (NoDup (pool self c w) → NoDup (concat (dict_values d))).
Proof.
  intros Hwf (_ & _ & _ & Hsub)%invoke_returns. specialize (Hsub Hwf).
  split_and!; [done|by apply submseteq_length|].
  intros Hnd. apply submseteq_Permutation in Hsub as [k Hk].
  rewrite Hk in Hnd. by apply NoDup_app in Hnd as [? _].
Qed.

(** X8.  Keys of the allocations.  When a strategy returns an allocation,
    each key is a declared group and occurs once, and the keys come in the
    order in which the groups are first declared.  Every strategy but
    [cluster_randomization] returns a key for every declared group;
    [cluster_randomization] can leave groups out. *)
Theorem allocation_keys_are_declared_groups self c w d :
  (invoke self c w).1 = Ok d →
  NoDup (dict_keys d)
  ∧ dict_keys d `sublist_of` first_occurrences (groups self)
  ∧ (∀ g, g ∈ dict_keys d → g ∈ groups self)
  ∧ (method_of c ≠ cluster_randomization_m →
     dict_keys d = first_occurrences (groups self)
     ∧ ∀ g, g ∈ groups self → is_Some (dict_get g d)).
Proof.
  intros (Hnd & Hsub & Heq & _)%invoke_returns. split_and!; [done..| |].
  - intros g Hg. apply first_occurrences_elem. by eapply elem_of_sublist.
  - intros Hm. split; [by apply Heq|]. intros g Hg.
    apply dict_get_is_Some. rewrite Heq by done. by apply first_occurrences_elem.
Qed.

(** X9.  [randomization_check] on a returned allocation.  The sizes it
    reports have the keys of the allocation, in the same order, each with
    the length of its list; they add up to the number of assigned
    participants, which is at most the number of participants the call was
    given. *)
Theorem randomization_check_counts self c w d :
  well_formed_call c →
  (invoke self c w).1 = Ok d →
  let sizes := randomization_check d in
  dict_keys sizes = dict_keys d
  ∧ (∀ g, dict_get g sizes = length <$> dict_get g d)
  ∧ sum_list (dict_values sizes) = length (concat (dict_values d))
  ∧ sum_list (dict_values sizes) ≤ length (pool self c w).
Proof.
  intros Hwf (Hnd & _ & _ & Hsub)%invoke_returns sizes. specialize (Hsub Hwf).
  destruct (randomization_check_total d Hnd) as [Hkeys Hsum].
  split_and!; [done| |done|].
  - intros g. by apply randomization_check_get.
  - unfold sizes. rewrite Hsum. by apply submseteq_length.
Qed.

(** X12.  [minimization] covers whenever it returns.  Whatever the group
    names (repeated names included), when [minimization] returns an
    allocation every participant of the stored list had a covariate value,
    there was a group unless the list was empty, and the lists of the
    allocation together hold the participants of the stored list, each as
    often as the list does. *)
Theorem minimization_covers_whenever_it_returns self (covariates : gmap P V) w d :
  let ps := heap w !!! participants self in
  (minimization self covariates w).1 = Ok d →
  concat (dict_values d) ≡ₚ ps
  ∧ (∀ p, p ∈ ps → is_Some (covariates !! p))
  ∧ (ps ≠ [] → groups self ≠ []).
Proof.
  intros ps. rewrite minimization_run. cbn [fst].
  intros (Hperm & _ & Hall & Hne)%greedy_returns.
  split_and!; [done| |done]. by apply Forall_forall.
Qed.

(** X11.  The store over a sequence of calls.  For every sequence of
    strategy calls on an engine, each call has an outcome, every list of
    the store holds afterwards the elements it held before (no call adds
    or removes a participant of any list), the generator of [numpy] is in
    the state it was in, and a list is in its old order unless it is the
    stored participant list and [simple_randomization] was called, or it
    was passed as the member list of a stratum. *)
Theorem calls_keep_the_elements_of_every_list self (calls : list call) w :
  let r := invoke_all self calls w in
  length r.1 = length calls
  ∧ (∀ l, heap r.2 !!! l ≡ₚ heap w !!! l)
  ∧ np_random r.2 = np_random w
  ∧ (∀ l, (l = participants self → SimpleRandomization ∉ calls) →
          (∀ c, c ∈ calls → l ∉ call_objects c) →
          heap r.2 !!! l = heap w !!! l).
Proof.
  revert w. induction calls as [|c calls IH]; intros w; [done|].
  cbn [invoke_all]. destruct (invoke_store self c w) as (Hp1 & Hn1 & Hf1).
  destruct (invoke self c w) as [r1 w1]. cbn [snd] in Hp1, Hn1, Hf1.
  specialize (IH w1). cbn zeta in IH.
  destruct (invoke_all self calls w1) as [rs w2]. cbn [fst snd] in *.
  destruct IH as (Hlen & Hp2 & Hn2 & Hf2).
  split_and!.
  - simpl. by rewrite Hlen.
  - intros l. by rewrite Hp2.
  - by rewrite Hn2.
  - intros l Hsimple Hobj. rewrite Hf2, Hf1.
    + done.
    + intros Hl ->. apply (Hsimple Hl). left.
    + apply Hobj. left.
    + intros Hl Hin. apply (Hsimple Hl). by right.
    + intros c' Hc'. apply Hobj. by right.
Qed.

(** X13.  One block size.  [permuted_block_randomization] with a list of
    one block size is [block_randomization] with that size: the same
    allocation or the same exception, and the same final state, for every
    size (zero and negative sizes included). *)
Theorem permuted_block_randomization_of_one_size self (block_size : Z) w :
  permuted_block_randomization self [block_size] w
  = block_randomization self block_size w.
Proof.
  rewrite permuted_block_randomization_run, block_randomization_run.
  by rewrite make_permuted_blocks_singleton.
Qed.

(** X14.  One block.  With a block size that is at least the number of
    participants (and at least 1), [block_randomization] returns the
    allocation [simple_randomization] returns from the same state and
    leaves the generator in the same state, but leaves the stored list in
    its order, where [simple_randomization] leaves it shuffled. *)
Theorem block_randomization_of_one_block self (block_size : Z) w :
  let ps := heap w !!! participants self in
  (1 ≤ block_size)%Z → (Z.of_nat (length ps) ≤ block_size)%Z →
  (block_randomization self block_size w).1 = (simple_randomization self w).1
  ∧ py_random (block_randomization self block_size w).2
    = py_random (simple_randomization self w).2
  ∧ heap (block_randomization self block_size w).2 = heap w
  ∧ heap (simple_randomization self w).2
    = <[participants self := (shuffle ps (py_random w)).1]> (heap w).
Proof.
  intros ps Hb Hlen. rewrite block_randomization_run, simple_randomization_run. fold ps.
  rewrite make_blocks_pos by done. rewrite blocks_of_whole by lia.
  destruct ps as [|p ps'] eqn:Hps.
  - done.
  - cbn [shuffle_each]. cbn zeta.
    destruct (shuffle (p :: ps') (py_random w)) as [x s]. simpl. by rewrite app_nil_r.
Qed.
End returned_allocations.
Section engines_in_turn.
Context `{RS : RandomSource} {P G V K : Type}.
Context `{Countable P, EqDecision G, EqDecision V, EqDecision K}.
Implicit Types (w : world (P := P)) (self : Randomizations (G := G)).
Implicit Types (c : call (P := P) (V := V) (K := K)).

(** A call that is given no list object reads the stored list and the
    generator of [random], and nothing else of the state. *)
Lemma invoke_rel self1 self2 c w1 w2 :
  groups self1 = groups self2 →
  method_of c ≠ stratified_randomization_m →
  heap w1 !!! participants self1 = heap w2 !!! participants self2 →
  py_random w1 = py_random w2 →
  (invoke self1 c w1).1 = (invoke self2 c w2).1
  ∧ heap (invoke self1 c w1).2 !!! participants self1
    = heap (invoke self2 c w2).2 !!! participants self2
  ∧ py_random (invoke self1 c w1).2 = py_random (invoke self2 c w2).2.
Proof.
  intros Hg Hm Hh Hr.
  destruct c as [|block_size|strata|covariates|block_sizes|clusters|covariates];
    cbn [invoke method_of] in *.
  - rewrite !simple_randomization_run. cbn. rewrite !lookup_total_insert_eq.
    by rewrite Hg, Hh, Hr.
  - rewrite !block_randomization_run. rewrite Hg, Hh, Hr.
    by destruct (make_blocks _ _).
  - done.
  - rewrite !covariate_adaptive_randomization_run. cbn. by rewrite Hg, Hh.
  - rewrite !permuted_block_randomization_run. rewrite Hg, Hh, Hr.
    by destruct (make_permuted_blocks _ _).
  - destruct (cluster_randomization_run self1 clusters w1) as [_ ->].
    destruct (cluster_randomization_run self2 clusters w2) as [_ ->].
    cbn. by rewrite Hg, Hr.
  - rewrite !minimization_run. cbn. by rewrite Hg, Hh.
Qed.

Lemma invoke_all_rel self1 self2 (calls : list call) w1 w2 :
  groups self1 = groups self2 →
  Forall (λ c, method_of c ≠ stratified_randomization_m) calls →
  heap w1 !!! participants self1 = heap w2 !!! participants self2 →
  py_random w1 = py_random w2 →
  (invoke_all self1 calls w1).1 = (invoke_all self2 calls w2).1.
Proof.
  intros Hg Hcalls. revert w1 w2.
  induction Hcalls as [|c calls Hc _ IH]; intros w1 w2 Hh Hr; [done|].
  cbn [invoke_all].
  destruct (invoke_rel self1 self2 c w1 w2 Hg Hc Hh Hr) as (Hout & Hh' & Hr').
  destruct (invoke self1 c w1) as [r1 w1'], (invoke self2 c w2) as [r2 w2'].
  cbn [fst snd] in *. specialize (IH w1' w2' Hh' Hr').
  destruct (invoke_all self1 calls w1') as [rs1 w1''].
  destruct (invoke_all self2 calls w2') as [rs2 w2'']. cbn [fst] in *. congruence.
Qed.

(** Calls that are given no list object leave every list but the stored
    one as it is. *)
Lemma invoke_all_frame self (calls : list call) w (l : loc) :
  Forall (λ c, method_of c ≠ stratified_randomization_m) calls →
  l ≠ participants self →
  heap (invoke_all self calls w).2 !!! l = heap w !!! l.
Proof.
  intros Hcalls Hl. revert w. induction Hcalls as [|c calls Hc _ IH]; intros w; [done|].
  cbn [invoke_all]. destruct (invoke_store self c w) as (_ & _ & Hframe).
  specialize (Hframe l). specialize (IH (invoke self c w).2).
  destruct (invoke self c w) as [r1 w1]. cbn [snd] in *.
  destruct (invoke_all self calls w1) as [rs w2]. cbn [snd] in *.
  rewrite IH. apply Hframe; [done|]. destruct c; (done || apply not_elem_of_nil).
Qed.

(** X10.  Engines used one after the other.  An engine is constructed
    with a seed on one list and a sequence of calls is made on it; then a
    second engine is constructed with the same groups and the same seed on
    another list that holds the same participants, and the same calls are
    made on it.  When no call is [stratified_randomization] (which works on
    lists of its caller), the second engine has the outcomes of the first,
    call by call: constructing the second engine seeds the generator again,
    and the calls on the first engine did not touch the list of the second.
    (A seed that [numpy] rejects makes both constructors raise.) *)
Theorem engines_used_in_turn_agree
    (participants1 participants2 : loc) (groups : list G) (seed : Z)
    (calls : list call) w :
  participants1 ≠ participants2 →
  heap w !!! participants1 = heap w !!! participants2 →
  Forall (λ c, method_of c ≠ stratified_randomization_m) calls →
  let r1 := run participants1 groups (Some seed) calls w in
  let r2 := run participants2 groups (Some seed) calls r1.2 in
  r1.1 = r2.1.
Proof.
  intros Hne Hh Hcalls. unfold run, init, bind, set_random_seed, ret.
  cbn [heap py_random np_random]. case_decide as Hseed; [|done].
  set (self1 := {| participants := participants1; groups := groups |}).
  set (self2 := {| participants := participants2; groups := groups |}).
  set (w1 := {| heap := heap w; py_random := rng_seed seed; np_random := np_seed seed |}).
  pose proof (invoke_all_frame self1 calls w1 participants2 Hcalls (not_eq_sym Hne))
    as Hframe.
  destruct (invoke_all self1 calls w1) as [rs1 w2] eqn:H1. cbn [fst snd heap] in *.
  set (w3 := {| heap := heap w2; py_random := rng_seed seed; np_random := np_seed seed |}).
  pose proof (invoke_all_rel self1 self2 calls w1 w3 eq_refl Hcalls) as Hrel.
  rewrite H1 in Hrel. cbn [fst] in Hrel.
  destruct (invoke_all self2 calls w3) as [rs2 w4]. cbn [fst] in *.
  f_equal. apply Hrel; [|done]. subst self1 self2 w1 w3.
  cbn [heap participants] in *. by rewrite Hframe.
Qed.
End engines_in_turn.
Section stratified_structure.
Context `{RS : RandomSource} {P G K : Type} `{EqDecision G}.
Implicit Types (w : world (P := P)) (self : Randomizations (G := G)).
Implicit Types (sg : dict G (list P)).

(** The loop over the strata with distinct group names: the group
    declared in position [i] gains hand [i] of each stratum as shuffled, in
    the order of the strata. *)
Lemma stratified_loop_structure self (strata : dict K loc) sg w :
  NoDup (groups self) → dict_keys sg = groups self →
  ∃ d w' shuffled,
    foldM (λ stratified_groups (item : K * loc),
             bind (shuffle_at item.2) (λ _,
             bind (load item.2) (λ ms,
             lift (extend_groups stratified_groups (round_robin (groups self) ms)))))
          sg (dict_items strata) w = (Ok d, w')
    ∧ Forall2 (λ xs l, xs ≡ₚ heap w !!! l) shuffled (dict_values strata)
    ∧ ∀ i g, groups self !! i = Some g →
        dict_get g d
        = (λ ys, ys ++ concat ((λ xs, slice_step xs i (length (groups self))) <$> shuffled))
            <$> dict_get g sg.
Proof.
  intros Hnd. unfold dict_items, dict_values.
  revert sg w. induction strata as [|[name l] strata IH]; intros sg w Hkeys.
  - exists sg, w, []. split_and!; [done|constructor|].
    intros i g _. csimpl. destruct (dict_get g sg); [|done]. csimpl. by rewrite app_nil_r.
  - cbn [foldM]. unfold bind at 1. unfold bind at 1. unfold shuffle_at at 1.
    cbn [snd]. pose proof (shuffle_Permutation (heap w !!! l) (py_random w)) as Hp.
    destruct (shuffle (heap w !!! l) (py_random w)) as [x s] eqn:Hsh. cbn [fst] in Hp.
    unfold bind at 1. unfold load at 1. cbn [heap].
    rewrite lookup_total_insert_eq. unfold lift at 1.
    destruct (extend_groups_Ok sg (round_robin (groups self) x)) as (sg1 & -> & Hk1 & Hget).
    { apply round_robin_keys_NoDup. }
    { intros g. by rewrite Hkeys, round_robin_keys. }
    set (w1 := {| heap := <[l:=x]> (heap w); py_random := s; np_random := np_random w |}).
    destruct (IH sg1 w1) as (d & w' & shuffled & Hrun & Hall & Hd); [by rewrite Hk1|].
    exists d, w', (x :: shuffled). split_and!; [done| |].
    + csimpl. constructor; [done|].
      eapply Forall2_impl; [exact Hall|]. intros xs l' ->. subst w1. cbn [heap].
      destruct (decide (l' = l)) as [->|Hne].
      * by rewrite lookup_total_insert_eq.
      * by rewrite lookup_total_insert_ne.
    + intros i g Hi. rewrite (Hd i g Hi), Hget.
      rewrite (round_robin_get (groups self) x i g Hnd Hi).
      destruct (dict_get g sg) as [ys|]; [|done]. csimpl. by rewrite <-app_assoc.
Qed.

(** X15.  Each stratum is dealt on its own.  With group names pairwise
    distinct, [stratified_randomization] returns an allocation in which the
    group declared in position [i] holds, stratum after stratum in the
    order of the strata, hand [i] of the round-robin deal of the members of
    the stratum as they were shuffled.  So every group receives from every
    stratum [n div g] of its [n] members, and one more when [i < n mod g]:
    within each stratum the groups differ by at most one. *)
Theorem stratified_randomization_deals_each_stratum self (strata : dict K loc) w :
  NoDup (groups self) →
  ∃ d w' shuffled,
    stratified_randomization self strata w = (Ok d, w')
    ∧ Forall2 (λ xs l, xs ≡ₚ heap w !!! l) shuffled (dict_values strata)
    ∧ ∀ i g, groups self !! i = Some g →
        dict_get g d
        = Some (concat ((λ xs, slice_step xs i (length (groups self))) <$> shuffled))
        ∧ ∀ xs, xs ∈ shuffled →
            length (slice_step xs i (length (groups self)))
            = length xs `div` length (groups self)
              + (if decide (i < length xs `mod` length (groups self)) then 1 else 0).
Proof.
  intros Hnd.
  destruct (stratified_loop_structure self strata (empty_allocation (groups self)) w Hnd)
    as (d & w' & shuffled & Hrun & Hall & Hd).
  { rewrite <-(first_occurrences_NoDup_id (groups self)) at 2 by done.
    apply (dict_keys_comprehension (λ _, [])). }
  exists d, w', shuffled. split_and!; [done..|].
  intros i g Hi. pose proof (lookup_lt_Some _ _ _ Hi) as Hlt. split.
  - rewrite (Hd i g Hi). unfold empty_allocation.
    rewrite (dict_get_comprehension (λ _, [])); [done|].
    by eapply list_elem_of_lookup_2.
  - intros xs _. rewrite length_slice_step by lia. by apply slice_step_length_div_mod.
Qed.
End stratified_structure.

(* ===================================================================== *)
(** * The strategies on concrete inputs *)
(* ===================================================================== *)

Import Lcg Sample.
Open Scope string_scope.



(** Five participants over two groups: 3 and 2; two strata of 3 and 2
    members. *)
Lemma round_robin_balance_witness :
  let self := engine ["Treatment"; "Control"] in
  let w := process [["P1"; "P2"; "P3"; "P4"; "P5"]; ["P1"; "P2"; "P3"]; ["P4"; "P5"]] 42 in
  (∃ d w', simple_randomization self w = (Ok d, w')
         ∧ balanced (randomization_check d)
         ∧ dict_get "Treatment" (randomization_check d) = Some 3
         ∧ dict_get "Control" (randomization_check d) = Some 2) ∧
  (∃ d w', block_randomization self 2 w = (Ok d, w')
         ∧ balanced (randomization_check d)) ∧
  (∃ d w', permuted_block_randomization self [2; 4]%Z w = (Ok d, w')
         ∧ balanced (randomization_check d)) ∧
  (∃ d w', stratified_randomization self [("young", 1); ("old", 2)] w = (Ok d, w')
         ∧ spread_at_most 2 (randomization_check d)).
Proof.
  destruct (round_robin_balance
              (engine ["Treatment"; "Control"])
              (process [["P1"; "P2"; "P3"; "P4"; "P5"]; ["P1"; "P2"; "P3"]; ["P4"; "P5"]] 42)
              2 [2; 4]%Z [("young", 1); ("old", 2)] ([] : dict string (list string)))
    as ((d & w' & Hrun & Hbal & Hsize) & Hblock & Hperm & _ & Hstrat).
  { simpl. lia. }
  assert (NoDup ["Treatment"; "Control"]) as Hnd.
  { refine (bool_decide_unpack (NoDup _) _). vm_compute. exact I. }
  split_and!.
  - exists d, w'. split_and!; [exact Hrun|exact Hbal| |].
    + exact (Hsize Hnd 0 "Treatment" eq_refl).
    + exact (Hsize Hnd 1 "Control" eq_refl).
  - apply Hblock. lia.
  - apply Hperm. refine (bool_decide_unpack (_ ∉ _) _). vm_compute. exact I.
  - exact Hstrat.
Defined.

(** Two strata of one member each give the first group both members; and
    with the names [A, B, A] the group declared first holds one participant
    of four. *)
Lemma balance_fails_for_strata_and_repeated_names :
  (∃ d, (stratified_randomization (engine ["Treatment"; "Control"])
           [("young", 1); ("old", 2)]
           (process [["P1"; "P2"]; ["P1"]; ["P2"]] 42)).1 = Ok d
      ∧ ¬ balanced (randomization_check d)) ∧
  (∃ d, (simple_randomization (engine ["A"; "B"; "A"])
           (process [["P1"; "P2"; "P3"; "P4"]] 42)).1 = Ok d
      ∧ dict_get "A" (randomization_check d) ≠ Some (4 `div` 3 + 1)).
Proof.
  split.
  - exists [("Treatment", ["P1"; "P2"]); ("Control", [])].
    split; [vm_compute; reflexivity|].
    intros Hbal. specialize (Hbal "Treatment" "Control" 2 0 eq_refl eq_refl). lia.
  - exists [("A", ["P3"]); ("B", ["P2"])].
    split; [vm_compute; reflexivity|]. vm_compute. discriminate.
Qed.

(** The usage example run from two states of the generators, with seed 42. *)
Example seeded_runs_agree_on_usage_example :
  let r1 := run 0 ["Treatment"; "Control"] (Some 42%Z) usage_calls (usage_process 7) in
  let r2 := run 0 ["Treatment"; "Control"] (Some 42%Z) usage_calls (usage_process 2024) in
  r1.1 = r2.1 ∧ heap r1.2 = heap r2.2 ∧ py_random r1.2 = py_random r2.2
  ∧ ((0 ≤ 42 < 2 ^ 32)%Z → r1.2 = r2.2).
Proof.
  apply (seeded_runs_agree 0 ["Treatment"; "Control"] 42%Z usage_calls
           (usage_process 7) (usage_process 2024)).
  reflexivity.
Defined.

(** Without a seed the constructor leaves the generators as they are, and
    two runs can differ. *)
Example unseeded_runs_can_differ :
  (run 0 ["Treatment"; "Control"] None usage_calls (usage_process 7)).1
  ≠ (run 0 ["Treatment"; "Control"] None usage_calls (usage_process 2024)).1.
Proof. vm_compute. discriminate. Qed.

(** C3 (the code departs from the claim).  The claim: two engines
    constructed with identical participants, identical groups and the same
    seed, and then invoked with the same calls, return identical
    allocations.  The code: the generators belong to the process, not to
    the engine, and the constructor seeds them.  When both engines are
    constructed and [simple_randomization] is then called on each, as in
    [test_repeatability_with_seed], the first call shuffles from the seeded
    state and the second from the state the first call left, whatever the
    generator; and with the sample generator the two allocations differ for
    the eight participants and the seed 42 of the test. *)
Theorem engines_of_one_process_share_the_generator :
  (∀ (RS : RandomSource) (P G : Type) (HG : EqDecision G)
     (l1 l2 : nat) (gs : list G) (seed : Z) (w : world (P := P)) (ps : list P),
     l1 ≠ l2 → heap w !!! l1 = ps → heap w !!! l2 = ps → (0 ≤ seed < 2 ^ 32)%Z →
     (two_engines l1 l2 gs seed w).1
     = Ok (round_robin gs (shuffle ps (rng_seed seed)).1,
           round_robin gs (shuffle ps (shuffle ps (rng_seed seed)).2).1))
  ∧ (∃ groups1 groups2,
       (two_engines 0 1 ["Treatment"; "Control"] 42 (process [P1_P8; P1_P8] 7)).1
       = Ok (groups1, groups2)
       ∧ groups1 ≠ groups2).
Proof.
  split.
  - intros. by apply two_engines_run.
  - exists [("Treatment", ["P3"; "P7"; "P2"; "P1"]); ("Control", ["P5"; "P8"; "P6"; "P4"])],
           [("Treatment", ["P2"; "P4"; "P7"; "P1"]); ("Control", ["P5"; "P6"; "P8"; "P3"])].
    split; [vm_compute; reflexivity|discriminate].
Qed.


Example minimization_sample :
  (minimization (engine ["Treatment"; "Control"]) covariates_AB (process [P1_P8] 42)).1
  = Ok [("Treatment", ["P1"; "P2"; "P5"; "P6"]); ("Control", ["P3"; "P4"; "P7"; "P8"])].
Proof. vm_compute. reflexivity. Qed.

(** The usage example: a complete allocation. *)
Lemma simple_randomization_never_fails_witness :
  ∃ d w',
    simple_randomization (engine ["Treatment"; "Control"]) (process [P1_P8] 42) = (Ok d, w')
    ∧ dict_keys d = ["Treatment"; "Control"]
    ∧ concat (dict_values d) ≡ₚ P1_P8.
Proof.
  destruct (simple_randomization_never_fails
              (engine ["Treatment"; "Control"]) (process [P1_P8] 42))
    as (d & w' & Hrun & _ & Hcomplete).
  exists d, w'. split; [exact Hrun|]. apply Hcomplete.
  - discriminate.
  - refine (bool_decide_unpack (NoDup _) _). vm_compute. exact I.
Defined.

(** No group: no exception, and an allocation that assigns nobody. *)
Lemma simple_randomization_accepts_no_group :
  ∃ d,
    (simple_randomization (engine []) (process [P1_P8] 42)).1 = Ok d
    ∧ d = []
    ∧ ¬ concat (dict_values d) ≡ₚ P1_P8.
Proof.
  exists []. split; [vm_compute; reflexivity|]. split; [done|].
  intros Hp%Permutation_length. discriminate.
Qed.

(** Block sizes 0, -3 and 4 on the usage example. *)
Lemma block_randomization_by_block_size_witness :
  let self := engine ["Treatment"; "Control"] in
  let w := process [P1_P8] 42 in
  block_randomization self 0 w = (Raise ValueError, w)
  ∧ (∃ d, block_randomization self (-3) w = (Ok d, w) ∧ ∀ g ys, (g, ys) ∈ d → ys = [])
  ∧ ∃ d w',
      block_randomization self 4 w = (Ok d, w')
      ∧ d = round_robin (groups self) (concat (shuffle_each (blocks_of 4 P1_P8) 42%Z).1)
      ∧ heap w' = heap w.
Proof.
  split_and!.
  - apply (block_randomization_by_block_size (engine ["Treatment"; "Control"]) 0
             (process [P1_P8] 42)). reflexivity.
  - apply (block_randomization_by_block_size (engine ["Treatment"; "Control"]) (-3)
             (process [P1_P8] 42)). lia.
  - destruct (block_randomization_by_block_size (engine ["Treatment"; "Control"]) 4
                (process [P1_P8] 42)) as (_ & _ & Hpos).
    destruct Hpos as (_ & _ & _ & d & w' & Hrun & Hd & Hheap & _); [lia|].
    by exists d, w'.
Defined.

(** A negative block size raises nothing. *)
Lemma block_randomization_accepts_negative_size :
  (block_randomization (engine ["Treatment"; "Control"]) (-1) (process [P1_P8] 42)).1
  = Ok [("Treatment", []); ("Control", [])].
Proof. vm_compute. reflexivity. Qed.

(** The usage example: sizes 2 and 4, sixteen assignments, each participant
    twice. *)
Lemma permuted_block_randomization_repeats_the_list_witness :
  ∃ d w',
    permuted_block_randomization (engine ["Treatment"; "Control"]) [2; 4]%Z
      (process [P1_P8] 42) = (Ok d, w')
    ∧ length (concat (dict_values d)) = 2 * 8
    ∧ ∀ p, p ∈ P1_P8 → occurrences p (concat (dict_values d)) = 2.
Proof.
  destruct (permuted_block_randomization_repeats_the_list
              (engine ["Treatment"; "Control"]) [2; 4]%Z (process [P1_P8] 42))
    as (d & w' & Hrun & _ & Hlen & _ & Hocc).
  - discriminate.
  - refine (bool_decide_unpack (Forall _ _) _). vm_compute. exact I.
  - discriminate.
  - refine (bool_decide_unpack (NoDup _) _). vm_compute. exact I.
  - exists d, w'. split_and!; [exact Hrun|exact Hlen|].
    apply Hocc. refine (bool_decide_unpack (NoDup _) _). vm_compute. exact I.
Defined.

(** A negative size contributes no block, a zero size raises, and a
    repeated group name drops a slice. *)
Lemma permuted_block_randomization_loses_participants :
  (∃ d,
     (permuted_block_randomization (engine ["Treatment"; "Control"]) [-1]%Z
        (process [P1_P8] 42)).1 = Ok d
     ∧ length (concat (dict_values d)) ≠ 1 * 8) ∧
  (permuted_block_randomization (engine ["Treatment"; "Control"]) [0]%Z
     (process [P1_P8] 42)).1 = Raise ValueError ∧
  (∃ d,
     (permuted_block_randomization (engine ["A"; "A"]) [1]%Z
        (process [["P1"; "P2"]] 42)).1 = Ok d
     ∧ length (concat (dict_values d)) ≠ 1 * 2).
Proof.
  split_and!.
  - exists [("Treatment", []); ("Control", [])].
    split; [vm_compute; reflexivity|]. vm_compute. discriminate.
  - vm_compute. reflexivity.
  - exists [("A", ["P2"])].
    split; [vm_compute; reflexivity|]. vm_compute. discriminate.
Qed.

(** [simple_randomization] does change the stored list. *)
Lemma simple_randomization_shuffles_stored_list :
  shuffles_stored_list (RS := Lcg.source) (P := string) (G := string) (V := string)
    (K := string) simple_randomization_m.
Proof.
  exists (engine ["Treatment"; "Control"]), SimpleRandomization, (process [P1_P8] 42).
  split; [done|]. split; [apply not_elem_of_nil|].
  vm_compute. discriminate.
Qed.

(** C9 (as amended: one method, not several).  Exactly one strategy
    method, [simple_randomization], shuffles the stored participant list of
    the engine in place: whatever the generator and the types of the
    identifiers, a method that leaves the stored list changed, on arguments
    that do not hold that list, is [simple_randomization], and
    [simple_randomization] does change it.  [block_randomization] and
    [permuted_block_randomization] shuffle slices and leave the whole store
    as it is.  The change is visible to the next call on the engine:
    [minimization] called after [simple_randomization] allocates in the order
    of the shuffled list and returns another allocation than it does on the
    list as constructed. *)
Theorem only_simple_randomization_shuffles_the_stored_list :
  (∀ (RS : RandomSource) (P G V K : Type)
     (HP : EqDecision P) (HC : Countable P)
     (HG : EqDecision G) (HV : EqDecision V) (HK : EqDecision K) (m : method),
     shuffles_stored_list (P := P) (G := G) (V := V) (K := K) m →
     m = simple_randomization_m)
  ∧ shuffles_stored_list (RS := Lcg.source) (P := string) (G := string) (V := string)
      (K := string) simple_randomization_m
  ∧ (∀ (RS : RandomSource) (P G : Type) (HG : EqDecision G)
       (self : Randomizations (G := G)) (w : world (P := P))
       (block_size : Z) (block_sizes : list Z),
       heap (block_randomization self block_size w).2 = heap w
       ∧ heap (permuted_block_randomization self block_sizes w).2 = heap w)
  ∧ (let self := engine ["Treatment"; "Control"] in
     let w := process [P1_P8] 42 in
     heap (simple_randomization self w).2 !!! participants self
     = ["P3"; "P5"; "P7"; "P8"; "P2"; "P6"; "P1"; "P4"]
     ∧ (minimization self covariates_AB (simple_randomization self w).2).1
       = Ok [("Treatment", ["P3"; "P7"; "P8"; "P6"]); ("Control", ["P5"; "P2"; "P1"; "P4"])]
     ∧ (minimization self covariates_AB w).1
       = Ok [("Treatment", ["P1"; "P2"; "P5"; "P6"]); ("Control", ["P3"; "P4"; "P7"; "P8"])]).
Proof.
  split_and!.
  - intros. by eapply shuffles_stored_list_simple.
  - apply simple_randomization_shuffles_stored_list.
  - intros. split.
    + apply block_randomization_heap.
    + apply permuted_block_randomization_heap.
  - split_and!; vm_compute; reflexivity.
Qed.

(** [block_randomization] and [permuted_block_randomization] leave the
    stored list of the usage example as it is, and no two methods shuffle
    the stored list. *)
Lemma several_methods_do_not_shuffle_the_stored_list :
  (let self := engine ["Treatment"; "Control"] in
   let w := process [P1_P8] 42 in
   heap (block_randomization self 4 w).2 !!! participants self = P1_P8
   ∧ heap (permuted_block_randomization self [2; 4]%Z w).2 !!! participants self = P1_P8)
  ∧ ¬ ∃ m1 m2 : method,
        m1 ≠ m2
        ∧ shuffles_stored_list (RS := Lcg.source) (P := string) (G := string) (V := string)
            (K := string) m1
        ∧ shuffles_stored_list (RS := Lcg.source) (P := string) (G := string) (V := string)
            (K := string) m2.
Proof.
  split.
  - split; vm_compute; reflexivity.
  - intros (m1 & m2 & Hne & H1 & H2). apply Hne.
    apply shuffles_stored_list_simple in H1, H2. congruence.
Qed.

(** C10.  [stratified_randomization] shuffles the member lists of the
    [strata] mapping in place.  Whatever the generator, the call returns an
    allocation, and after it every member list of the mapping holds the
    elements it held, each as many times, possibly in another order, while
    every other list of the store is as it was; and the order does change:
    on the strata of the usage example of the module the second member list
    is left in another order.  (The allocation is returned by value: its
    lists are built by the call from slices of the member lists.) *)
Theorem stratified_randomization_shuffles_its_argument :
  (∀ (RS : RandomSource) (P G K : Type) (HG : EqDecision G)
     (self : Randomizations (G := G)) (strata : dict K nat) (w : world (P := P)),
     ∃ d w',
       stratified_randomization self strata w = (Ok d, w')
       ∧ (∀ l, l ∈ dict_values strata → heap w' !!! l ≡ₚ heap w !!! l)
       ∧ (∀ l, l ∉ dict_values strata → heap w' !!! l = heap w !!! l))
  ∧ (let self := engine ["Treatment"; "Control"] in
     let strata := [("young", 1); ("old", 2)] in
     let w := process [P1_P8; ["P1"; "P2"; "P3"; "P4"]; ["P5"; "P6"; "P7"; "P8"]] 42 in
     heap w !!! 2 = ["P5"; "P6"; "P7"; "P8"]
     ∧ heap (stratified_randomization self strata w).2 !!! 2 = ["P8"; "P5"; "P6"; "P7"]
     ∧ (stratified_randomization self strata w).1
       = Ok [("Treatment", ["P1"; "P3"; "P8"; "P6"]); ("Control", ["P2"; "P4"; "P5"; "P7"])]).
Proof.
  split.
  - intros. destruct (stratified_randomization_run self strata w)
      as (d & w' & Hrun & _ & Hperm & Hframe & _).
    exists d, w'. split_and!; [done| |done]. intros l _. apply Hperm.
  - split_and!; vm_compute; reflexivity.
Qed.

(* ===================================================================== *)
(** * The further properties on concrete inputs *)
(* ===================================================================== *)

(** Four clusters of two participants dealt into two groups. *)
Lemma cluster_randomization_coverage_witness :
  let self := engine ["Treatment"; "Control"] in
  let clusters := [("cluster1", ["P1"; "P2"]); ("cluster2", ["P3"; "P4"]);
                   ("cluster3", ["P5"; "P6"]); ("cluster4", ["P7"; "P8"])] in
  let w := process [P1_P8] 42 in
  ∃ d w',
    cluster_randomization self clusters w = (Ok d, w')
    ∧ concat (dict_values d) ≡ₚ concat (dict_values clusters)
    ∧ dict_keys d = take (length clusters) (groups self).
Proof.
  intros self clusters w.
  apply (cluster_randomization_coverage self clusters w).
  - discriminate.
  - refine (bool_decide_unpack (NoDup _) _). vm_compute. exact I.
  - refine (bool_decide_unpack (NoDup _) _). vm_compute. exact I.
Defined.


(** A covariate map that lacks participant P3. *)
Lemma minimization_raises_KeyError_on_missing_covariate_witness :
  let self := engine ["Treatment"; "Control"] in
  let covariates : gmap string string := list_to_map [("P1", "A"); ("P2", "B")] in
  let w := process [P1_P8] 42 in
  (minimization self covariates w).1 = Raise KeyError
  ∧ (minimization self covariates w).2 = w.
Proof.
  intros self covariates w.
  destruct (minimization_raises_KeyError_on_missing_covariate self covariates w)
    as (Hkey & _ & _ & Hw); [discriminate|].
  split; [|exact Hw]. apply Hkey. exists "P3". split; [|reflexivity].
  refine (bool_decide_unpack (_ ∈ _) _). vm_compute. exact I.
Defined.

(** An engine without groups: [min] has nothing to choose from. *)
Lemma minimization_without_groups_witness :
  (minimization (engine []) covariates_AB (process [P1_P8] 42)).1 = Raise ValueError.
Proof.
  exact (minimization_without_groups (engine []) covariates_AB (process [P1_P8] 42)
           eq_refl).
Defined.

(** The strata of the usage example. *)
Lemma stratified_randomization_coverage_witness :
  let self := engine ["Treatment"; "Control"] in
  let strata := [("young", 1%nat); ("old", 2%nat)] in
  let w := usage_process 42 in
  ∃ d w',
    stratified_randomization self strata w = (Ok d, w')
    ∧ dict_keys d = groups self
    ∧ concat (dict_values d) ≡ₚ concat ((λ l, heap w !!! l) <$> dict_values strata).
Proof.
  intros self strata w.
  apply (stratified_randomization_coverage self strata w).
  - discriminate.
  - refine (bool_decide_unpack (NoDup _) _). vm_compute. exact I.
Defined.

(** Two groups of the same name: half of the participants are assigned,
    none of them twice. *)
Lemma allocations_hold_only_given_participants_witness :
  let self := engine ["A"; "A"] in
  let c := BlockRandomization (V := string) (K := string) 2 in
  let w := process [P1_P8] 42 in
  let d := [("A", ["P2"; "P3"; "P6"; "P7"])] in
  (invoke self c w).1 = Ok d
  ∧ concat (dict_values d) ⊆+ pool self c w
  ∧ (length (concat (dict_values d)) ≤ length (pool self c w))%nat
  ∧ (NoDup (pool self c w) → NoDup (concat (dict_values d))).
Proof.
  intros self c w d.
  assert ((invoke self c w).1 = Ok d) as Hrun by (vm_compute; reflexivity).
  split; [exact Hrun|].
  exact (allocations_hold_only_given_participants self c w d I Hrun).
Defined.

(** Two clusters for three groups: the third group is not a key. *)
Lemma allocation_keys_are_declared_groups_witness :
  let self := engine ["Treatment"; "Control"; "Reserve"] in
  let c := ClusterRandomization (V := string)
             [("cluster1", ["P1"; "P2"]); ("cluster2", ["P3"; "P4"])] in
  let w := process [P1_P8] 42 in
  let d := [("Treatment", ["P1"; "P2"]); ("Control", ["P3"; "P4"])] in
  (invoke self c w).1 = Ok d
  ∧ NoDup (dict_keys d)
  ∧ dict_keys d `sublist_of` first_occurrences (groups self)
  ∧ (∀ g, g ∈ dict_keys d → g ∈ groups self).
Proof.
  intros self c w d.
  assert ((invoke self c w).1 = Ok d) as Hrun by (vm_compute; reflexivity).
  destruct (allocation_keys_are_declared_groups self c w d Hrun) as (Hnd & Hsub & Hin & _).
  by split_and!.
Defined.

(** Seven participants dealt into three groups. *)
Lemma randomization_check_counts_witness :
  let self := engine ["Treatment"; "Control"; "Reserve"] in
  let c := SimpleRandomization (V := string) (K := string) in
  let w := process [["P1"; "P2"; "P3"; "P4"; "P5"; "P6"; "P7"]] 42 in
  let d := [("Treatment", ["P7"; "P6"; "P5"]); ("Control", ["P1"; "P4"]);
            ("Reserve", ["P2"; "P3"])] in
  (invoke self c w).1 = Ok d
  ∧ dict_keys (randomization_check d) = dict_keys d
  ∧ (∀ g, dict_get g (randomization_check d) = length <$> dict_get g d)
  ∧ sum_list (dict_values (randomization_check d)) = length (concat (dict_values d))
  ∧ (sum_list (dict_values (randomization_check d)) ≤ length (pool self c w))%nat.
Proof.
  intros self c w d.
  assert ((invoke self c w).1 = Ok d) as Hrun by (vm_compute; reflexivity).
  split; [exact Hrun|].
  exact (randomization_check_counts self c w d I Hrun).
Defined.

(** A repeated group name: the one key of the name is used. *)
Lemma minimization_covers_whenever_it_returns_witness :
  let self := engine ["A"; "B"; "A"] in
  let w := process [P1_P8] 42 in
  let d := [("A", ["P1"; "P2"; "P5"; "P6"]); ("B", ["P3"; "P4"; "P7"; "P8"])] in
  (minimization self covariates_AB w).1 = Ok d
  ∧ concat (dict_values d) ≡ₚ P1_P8
  ∧ (∀ p, p ∈ P1_P8 → is_Some (covariates_AB !! p))
  ∧ (P1_P8 ≠ [] → groups self ≠ []).
Proof.
  intros self w d.
  assert ((minimization self covariates_AB w).1 = Ok d) as Hrun by (vm_compute; reflexivity).
  split; [exact Hrun|].
  exact (minimization_covers_whenever_it_returns self covariates_AB w d Hrun).
Defined.

(** Blocks of ten for eight participants. *)
Lemma block_randomization_of_one_block_witness :
  let self := engine ["Treatment"; "Control"] in
  let w := process [P1_P8] 42 in
  (block_randomization self 10 w).1 = (simple_randomization self w).1
  ∧ py_random (block_randomization self 10 w).2 = py_random (simple_randomization self w).2
  ∧ heap (block_randomization self 10 w).2 = heap w
  ∧ heap (simple_randomization self w).2
    = <[participants self := (shuffle P1_P8 (py_random w)).1]> (heap w).
Proof.
  intros self w.
  apply (block_randomization_of_one_block self 10 w).
  - lia.
  - vm_compute. discriminate.
Defined.

(** The schedule of the repeatability test with each engine used before
    the next one is constructed, each on a list of its own. *)
Lemma engines_used_in_turn_agree_witness :
  let calls : list (call (P := string) (V := string) (K := string)) :=
    [SimpleRandomization; BlockRandomization 4; Minimization covariates_AB] in
  let w := process [P1_P8; P1_P8] 7 in
  let r1 := run 0 ["Treatment"; "Control"] (Some 42%Z) calls w in
  let r2 := run 1 ["Treatment"; "Control"] (Some 42%Z) calls r1.2 in
  r1.1 = r2.1.
Proof.
  intros calls w.
  apply (engines_used_in_turn_agree 0 1 ["Treatment"; "Control"] 42%Z calls w).
  - discriminate.
  - vm_compute. reflexivity.
  - repeat constructor; cbn; discriminate.
Defined.

(** The two strata of the usage example, four members each. *)
Lemma stratified_randomization_deals_each_stratum_witness :
  let self := engine ["Treatment"; "Control"] in
  let strata := [("young", 1%nat); ("old", 2%nat)] in
  let w := usage_process 42 in
  ∃ d w' shuffled,
    stratified_randomization self strata w = (Ok d, w')
    ∧ Forall2 (λ xs l, xs ≡ₚ heap w !!! l) shuffled (dict_values strata)
    ∧ ∀ i g, groups self !! i = Some g →
        dict_get g d
        = Some (concat ((λ xs, slice_step xs i (length (groups self))) <$> shuffled))
        ∧ ∀ xs, xs ∈ shuffled →
            (length (slice_step xs i (length (groups self)))
             = length xs `div` length (groups self)
               + (if decide (i < length xs `mod` length (groups self)) then 1 else 0))%nat.
Proof.
  intros self strata w.
  apply (stratified_randomization_deals_each_stratum self strata w).
  refine (bool_decide_unpack (NoDup _) _). vm_compute. exact I.
Defined.
